(** * rom2msx: the layout engine of [rom2msx.cpp], embedded and verified

    The program pads an MSX ROM to whole 8 KiB banks, checks that it fits
    the selected flash chip, picks a start bank from the cartridge type,
    copies the banks into an image filled with 0xFF, writes the image and
    optionally reads it back to check it.

    Conventions of the embedding:
    - [uint8_t] is [byte]; a [std::vector<uint8_t>] is a [list byte];
    - [size_t] is a [Z] in [0, 2^64), every [+], [-] and [*] wraps;
    - [die] ends the run: an [outcome] is [Done], [Exit] (a [die] site) or
      [Undefined] (an access past the end of a vector, which C++ leaves
      without a meaning);
    - for the conversion and the verify pass the output file is the [sink]
      field of a [World]; the command line, the files by path and the
      report on standard output come with [program], further down. *)

From Stdlib Require Import ZArith Lia.
From Stdlib Require Import Strings.Byte Strings.Ascii.
From stdpp Require Import base list strings pretty gmap.

Local Open Scope Z_scope.

(** ** Machine integers *)

Module SizeT.

Definition modulus : Z := 2 ^ 64.

(** [static_cast<size_t>(x)] *)
Definition cast (x : Z) : Z := x mod modulus.

Definition add (a b : Z) : Z := cast (a + b).
Definition sub (a b : Z) : Z := cast (a - b).
Definition mul (a b : Z) : Z := cast (a * b).

(** [v.size()] *)
Definition size {A} (v : list A) : Z := Z.of_nat (length v).

(** [std::vector<uint8_t>::max_size()]: a vector never holds more. *)
Definition max_size : Z := 2 ^ 63 - 1.

End SizeT.

(** ** Outcomes of a run *)

(** One constructor per [die] call of [main]. *)
Inductive Failure : Type :=
| RomTooLargeForSimple64K          (* line 127 *)
| RomLargerThanChip                (* line 132 *)
| AddrExceedsWindow                (* line 154 *)
| AutoStartDoesNotFit              (* line 164 *)
| OutputOverflow                   (* line 177 *)
| VerifyReadBackFailed             (* line 201 *)
| VerifyBankMismatch (bank : Z)    (* line 207 *)
| VerifyNonFF.                     (* line 216 *)

(** [std::to_string] of a [size_t]. *)
Definition to_string (n : Z) : string := pretty (Z.to_N n).

(** The text handed to [die]. *)
Definition message (f : Failure) : string :=
  match f with
  | RomTooLargeForSimple64K => "ROM too large for Simple64K (max 64 KiB)"
  | RomLargerThanChip =>
      "Input ROM (after 8 KiB padding) is larger than selected chip size"
  | AddrExceedsWindow => "Simple64K: --addr + bank_count exceeds 8 banks"
  | AutoStartDoesNotFit =>
      "Simple64K: auto start doesn't fit; try a smaller ROM or pass --addr"
  | OutputOverflow =>
      "Output overflow: bank placement exceeds selected chip size"
  | VerifyReadBackFailed => "--verify: failed to read output back"
  | VerifyBankMismatch bank => "--verify: mismatch in bank " +:+ to_string bank
  | VerifyNonFF => "--verify: non-0xFF found outside written area"
  end.

(** The error classes of the specification. *)
Inductive ErrorKind : Type :=
| IOError | CapacityError | RangeError | OverflowError | VerifyMismatch.

Definition kind (f : Failure) : ErrorKind :=
  match f with
  | RomTooLargeForSimple64K | RomLargerThanChip => CapacityError
  | AddrExceedsWindow | AutoStartDoesNotFit => RangeError
  | OutputOverflow => OverflowError
  | VerifyReadBackFailed => IOError
  | VerifyBankMismatch _ | VerifyNonFF => VerifyMismatch
  end.

Inductive outcome (A : Type) : Type :=
| Done (a : A)
| Exit (f : Failure)
| Undefined.

Arguments Done {A} a.
Arguments Exit {A} f.
Arguments Undefined {A}.

Definition bind {A B} (c : outcome A) (k : A -> outcome B) : outcome B :=
  match c with
  | Done a => k a
  | Exit f => Exit f
  | Undefined => Undefined
  end.

Notation "x <- c ;; k" := (bind c (fun x => k))
  (at level 100, c at next level, right associativity).
Notation "c ;;; k" := (bind c (fun _ => k))
  (at level 100, right associativity).

Definition die {A} (f : Failure) : outcome A := Exit f.

(** [if (c) die(f);] *)
Definition die_if (c : bool) (f : Failure) : outcome unit :=
  if c then die f else Done tt.

(** ** Vectors of bytes *)

Definition fill_byte : byte := xff.

(** [v[i]] *)
Definition read (v : list byte) (i : Z) : outcome byte :=
  match v !! Z.to_nat i with
  | Some b => Done b
  | None => Undefined
  end.

(** [v.resize(n, c)] *)
Definition resize (v : list byte) (n : Z) (c : byte) : list byte :=
  take (Z.to_nat n) v ++ replicate (Z.to_nat n - length v)%nat c.

(** [std::memcpy(dst.data() + dst_off, src.data() + src_off, n)] *)
Definition memcpy (dst : list byte) (dst_off : Z) (src : list byte)
    (src_off n : Z) : outcome (list byte) :=
  if (dst_off + n <=? SizeT.size dst) && (src_off + n <=? SizeT.size src) then
    Done (take (Z.to_nat dst_off) dst
          ++ take (Z.to_nat n) (drop (Z.to_nat src_off) src)
          ++ drop (Z.to_nat (dst_off + n)) dst)
  else Undefined.

(** ** The conversion (lines 112 to 180 of [main]) *)

Inductive CartType : Type := MegaSCC | RC755 | Simple64K.

Definition BANK_SIZE : Z := 0x2000.

(** Lines 117-121: pad the ROM up to a multiple of 8 KiB with 0xFF. *)
Definition pad_rom (rom : list byte) : list byte :=
  if negb (SizeT.size rom mod BANK_SIZE =? 0) then
    let padded :=
      SizeT.mul
        (SizeT.sub (SizeT.add (SizeT.size rom) BANK_SIZE) 1 / BANK_SIZE)
        BANK_SIZE in
    resize rom padded fill_byte
  else rom.

(** Lines 124-133: the two capacity checks. *)
Definition check_capacity (type : CartType) (in_banks rom_size chip_bytes : Z)
    : outcome unit :=
  match type with
  | Simple64K => die_if (in_banks >? 8) RomTooLargeForSimple64K
  | _ => Done tt
  end ;;;
  die_if (rom_size >? chip_bytes) RomLargerThanChip.

(** Lines 139-169: the start bank. [s64k_addr] is [-1] without [--addr]. *)
Definition compute_start_bank (type : CartType) (s64k_addr : Z)
    (rom_size in_banks : Z) : outcome Z :=
  match type with
  | MegaSCC => Done 0
  | RC755 => Done 0
  | Simple64K =>
      if s64k_addr >=? 0 then
        die_if (SizeT.add (SizeT.cast s64k_addr) in_banks >? 8)
               AddrExceedsWindow ;;;
        Done (SizeT.cast s64k_addr)
      else
        let size_kib := rom_size / 1024 in
        let start_bank := if size_kib <=? 32 then 2 else 0 in
        die_if (SizeT.add start_bank in_banks >? 8) AutoStartDoesNotFit ;;;
        Done start_bank
  end.

(** Lines 172-180: the placement loop, [todo] iterations from [bank] on. *)
Fixpoint place_banks_from (todo : nat) (bank start_bank : Z)
    (rom out : list byte) : outcome (list byte) :=
  match todo with
  | O => Done out
  | S todo' =>
      let dst_bank := SizeT.add start_bank bank in
      let dst_off := SizeT.mul dst_bank BANK_SIZE in
      let src_off := SizeT.mul bank BANK_SIZE in
      die_if (SizeT.add dst_off BANK_SIZE >? SizeT.size out) OutputOverflow ;;;
      out' <- memcpy out dst_off rom src_off BANK_SIZE ;;
      place_banks_from todo' (SizeT.add bank 1) start_bank rom out'
  end.

Definition place_banks (start_bank in_banks : Z) (rom out : list byte)
    : outcome (list byte) :=
  place_banks_from (Z.to_nat in_banks) 0 start_bank rom out.

(** The image, the start bank and the number of banks. *)
Definition convert (chip_kib : Z) (type : CartType) (s64k_addr : Z)
    (input : list byte) : outcome (list byte * Z * Z) :=
  let chip_bytes := SizeT.mul (SizeT.cast chip_kib) 1024 in
  let rom := pad_rom input in
  let in_banks := SizeT.size rom / BANK_SIZE in
  check_capacity type in_banks (SizeT.size rom) chip_bytes ;;;
  let out := replicate (Z.to_nat chip_bytes) fill_byte in
  start_bank <- compute_start_bank type s64k_addr (SizeT.size rom) in_banks ;;
  out' <- place_banks start_bank in_banks rom out ;;
  Done (out', start_bank, in_banks).

(** ** The verify pass (lines 203 to 217) *)

(** Lines 205-209: the bytes of one bank, [todo] of them from [i] on. *)
Fixpoint verify_bank_from (todo : nat) (i : Z) (vb rom : list byte)
    (dst_off bank : Z) : outcome unit :=
  match todo with
  | O => Done tt
  | S todo' =>
      a <- read vb (SizeT.add dst_off i) ;;
      b <- read rom (SizeT.add (SizeT.mul bank BANK_SIZE) i) ;;
      die_if (negb (Byte.eqb a b)) (VerifyBankMismatch bank) ;;;
      verify_bank_from todo' (SizeT.add i 1) vb rom dst_off bank
  end.

(** Lines 203-210: every written bank. *)
Fixpoint verify_banks_from (todo : nat) (bank : Z) (vb rom : list byte)
    (start_bank : Z) : outcome unit :=
  match todo with
  | O => Done tt
  | S todo' =>
      let dst_off := SizeT.mul (SizeT.add start_bank bank) BANK_SIZE in
      verify_bank_from (Z.to_nat BANK_SIZE) 0 vb rom dst_off bank ;;;
      verify_banks_from todo' (SizeT.add bank 1) vb rom start_bank
  end.

(** Lines 212-217: 0xFF everywhere else. *)
Fixpoint verify_fill_from (todo : nat) (i : Z) (vb : list byte)
    (start_bank in_banks : Z) : outcome unit :=
  match todo with
  | O => Done tt
  | S todo' =>
      let bank_idx := i / BANK_SIZE in
      let within_written :=
        (bank_idx >=? start_bank)
        && (bank_idx <? SizeT.add start_bank in_banks) in
      (if negb within_written then
         b <- read vb i ;;
         die_if (negb (Byte.eqb b fill_byte)) VerifyNonFF
       else Done tt) ;;;
      verify_fill_from todo' (SizeT.add i 1) vb start_bank in_banks
  end.

Definition verify_pass (vb rom : list byte) (start_bank in_banks : Z)
    : outcome unit :=
  verify_banks_from (Z.to_nat in_banks) 0 vb rom start_bank ;;;
  verify_fill_from (length vb) 0 vb start_bank in_banks.

(** ** The whole run, with the output file *)

Record World : Type := { sink : option (list byte) }.

(** [write_file]: the file holds exactly the buffer afterwards. *)
Definition write_file (buf : list byte) (w : World) : outcome unit * World :=
  (Done tt, {| sink := Some buf |}).

(** Lines 195-201: the file read back into [vb]. *)
Definition read_back (w : World) : outcome (list byte) :=
  match sink w with
  | Some vb => Done vb
  | None => die VerifyReadBackFailed
  end.

Definition main (verify : bool) (chip_kib : Z) (type : CartType)
    (s64k_addr : Z) (input : list byte) (w : World) : outcome unit * World :=
  match convert chip_kib type s64k_addr input with
  | Done (out, start_bank, in_banks) =>
      let '(r, w') := write_file out w in
      (r ;;;
       if verify then
         vb <- read_back w' ;;
         verify_pass vb (pad_rom input) start_bank in_banks
       else Done tt, w')
  | Exit f => (Exit f, w)
  | Undefined => (Undefined, w)
  end.

(** What the option parser lets through: [--chip] is one of the four sizes
    (line 91), [s64k_addr] is -1 without [--addr] and 0..7 with it
    (lines 83 and 104). *)
Definition valid_chip (chip_kib : Z) : Prop :=
  chip_kib = 64 \/ chip_kib = 128 \/ chip_kib = 256 \/ chip_kib = 512.

Definition valid_addr (s64k_addr : Z) : Prop := -1 <= s64k_addr <= 7.

(** An input that, padded, still fits a vector: no [size_t] expression
    of the conversion wraps on it. *)
Definition loadable (input : list byte) : Prop :=
  SizeT.size input + BANK_SIZE <= SizeT.max_size.

(** Decidable equality, to compare concrete outcomes by running them. *)
#[local] Instance byte_eq_decision : EqDecision byte := Byte.byte_eq_dec.

#[local] Instance Failure_eq_decision : EqDecision Failure.
Proof. solve_decision. Defined.

#[local] Instance outcome_eq_decision {A} `{EqDecision A} :
  EqDecision (outcome A).
Proof. solve_decision. Defined.

(** ** Vocabulary of the statements *)

(** The size after padding: the next multiple of the bank size. *)
Definition padded_size (n : Z) : Z := (n + 8191) / 8192 * 8192.

(** The terms of the specification. *)
Definition normalized_size (input : list byte) : Z :=
  SizeT.size (pad_rom input).

Definition bank_count (input : list byte) : Z :=
  normalized_size input / BANK_SIZE.

Definition chip_capacity (chip_kib : Z) : Z := chip_kib * 1024.

(** Offset [o] lies in one of the ranges the placer writes. *)
Definition placed (start_bank in_banks o : Z) : Prop :=
  exists i, 0 <= i < in_banks /\
            (start_bank + i) * 8192 <= o < (start_bank + i) * 8192 + 8192.

(** The start bank the resolver settles on when it does not stop. *)
Definition resolved_start (type : CartType) (s64k_addr rom_size : Z) : Z :=
  match type with
  | Simple64K =>
      if s64k_addr >=? 0 then s64k_addr
      else if rom_size / 1024 <=? 32 then 2 else 0
  | _ => 0
  end.

(** The checks in the order the program makes them. *)
Definition window_exceeded (type : CartType) (input : list byte) : Prop :=
  type = Simple64K /\ bank_count input > 8.

Definition chip_exceeded (chip_kib : Z) (input : list byte) : Prop :=
  normalized_size input > chip_capacity chip_kib.

Definition addr_exceeded (type : CartType) (s64k_addr : Z)
    (input : list byte) : Prop :=
  type = Simple64K /\ 0 <= s64k_addr /\ s64k_addr + bank_count input > 8.

(** What a finished conversion hands back. *)
Definition finished (chip_kib : Z) (type : CartType) (s64k_addr : Z)
    (input : list byte) : Prop :=
  exists out,
    convert chip_kib type s64k_addr input =
      Done (out, resolved_start type s64k_addr (normalized_size input),
            bank_count input) /\
    SizeT.size out = chip_capacity chip_kib /\
    let start_bank := resolved_start type s64k_addr (normalized_size input) in
    0 <= start_bank /\
    (start_bank + bank_count input) * 8192 <= chip_capacity chip_kib /\
    (forall o : nat,
       start_bank * 8192 <= Z.of_nat o
         < (start_bank + bank_count input) * 8192 ->
       out !! o = pad_rom input !! Z.to_nat (Z.of_nat o - start_bank * 8192))
    /\
    (forall o : nat,
       Z.of_nat o < chip_capacity chip_kib ->
       ~ start_bank * 8192 <= Z.of_nat o
           < (start_bank + bank_count input) * 8192 ->
       out !! o = Some fill_byte).

(** Bank [bank] of the image [vb] differs from the ROM at some byte. *)
Definition bank_differs (vb rom : list byte) (start_bank bank : Z) : Prop :=
  exists j, 0 <= j < 8192 /\
            vb !! Z.to_nat ((start_bank + bank) * 8192 + j)
            <> rom !! Z.to_nat (bank * 8192 + j).

(** [bank] is the lowest written bank that differs. *)
Definition first_bad_bank (vb rom : list byte) (start_bank in_banks bank : Z)
    : Prop :=
  0 <= bank < in_banks /\ bank_differs vb rom start_bank bank /\
  forall b, 0 <= b < bank -> ~ bank_differs vb rom start_bank b.

(** Offset [o] of the image lies outside the written banks and does not
    hold the fill byte. *)
Definition stray_byte (vb : list byte) (start_bank in_banks o : Z) : Prop :=
  0 <= o < SizeT.size vb /\ ~ placed start_bank in_banks o /\
  vb !! Z.to_nat o <> Some fill_byte.

(** [o] is the lowest such offset. *)
Definition first_stray_byte (vb : list byte) (start_bank in_banks o : Z)
    : Prop :=
  stray_byte vb start_bank in_banks o /\
  forall o', 0 <= o' < o -> ~ stray_byte vb start_bank in_banks o'.

(** The written banks lie inside the image and inside the ROM. *)
Definition readable (vb rom : list byte) (start_bank in_banks : Z) : Prop :=
  0 <= start_bank /\ 0 <= in_banks /\
  (start_bank + in_banks) * 8192 <= SizeT.size vb <= SizeT.max_size /\
  in_banks * 8192 <= SizeT.size rom <= SizeT.max_size.

(** A three-byte ROM and the 64 KiB Simple64K image made from it, used to
    run the statements on a concrete input. *)
Definition sample_rom : list byte := [x4d; x53; x58].

Definition sample_image : list byte :=
  replicate (Z.to_nat 16384) fill_byte ++ sample_rom
  ++ replicate (Z.to_nat 49149) fill_byte.

(** ROMs of a given size, all zero. *)
Definition blank_rom (size : Z) : list byte := replicate (Z.to_nat size) x00.

(** The 64 KiB image [convert] makes of [sample_rom] for MegaSCC/RC755. *)
Definition sample_image_linear : list byte :=
  sample_rom ++ replicate (Z.to_nat 65533) fill_byte.


(** The erased image a chip starts from. *)
Definition erased (chip_kib : Z) : list byte :=
  replicate (Z.to_nat (chip_capacity chip_kib)) fill_byte.

(** An erased 64 KiB image with a single zero byte, at offset [o]. *)
Definition stained_image (o : Z) : list byte :=
  replicate (Z.to_nat o) fill_byte
  ++ x00 :: replicate (Z.to_nat (65535 - o)) fill_byte.

(** An image written out in full: 0xFF up to the start bank, the ROM, then
    0xFF up to the end of the chip. *)
Definition laid_out (chip_kib start_bank : Z) (rom : list byte) : list byte :=
  replicate (Z.to_nat (start_bank * 8192)) fill_byte ++ rom
  ++ replicate
       (Z.to_nat (chip_capacity chip_kib - start_bank * 8192 - SizeT.size rom))
       fill_byte.

(** ** The command line (lines 71 to 110 of [main]) *)

(** [isspace] in the C locale. *)
Definition isspace (c : Ascii.ascii) : bool :=
  let n := Ascii.N_of_ascii c in ((n =? 32) || ((9 <=? n) && (n <=? 13)))%N.

(** The value of a decimal digit. *)
Definition digit_value (c : Ascii.ascii) : option Z :=
  let n := Z.of_N (Ascii.N_of_ascii c) in
  if (48 <=? n) && (n <=? 57) then Some (n - 48) else None.

Fixpoint skip_space (s : string) : string :=
  match s with
  | String c s' => if isspace c then skip_space s' else s
  | EmptyString => s
  end.

(** The digits at the head of [s], read on from [acc]. *)
Fixpoint digits_value (s : string) (acc : Z) : Z :=
  match s with
  | String c s' =>
      match digit_value c with
      | Some d => digits_value s' (10 * acc + d)
      | None => acc
      end
  | EmptyString => acc
  end.

Definition INT_MIN : Z := - 2 ^ 31.
Definition INT_MAX : Z := 2 ^ 31 - 1.

(** [std::atoi]: blanks, an optional sign, then digits up to the first
    character that is none; 0 when there is no digit. A value that does not
    fit an [int] has no defined result. *)
Definition atoi (s : string) : outcome Z :=
  let s := skip_space s in
  let '(negative, s) :=
    match s with
    | String "-"%char s' => (true, s')
    | String "+"%char s' => (false, s')
    | _ => (false, s)
    end in
  let v := digits_value s 0 in
  let r := if negative then - v else v in
  if (INT_MIN <=? r) && (r <=? INT_MAX) then Done r else Undefined.

(** The variables the option loop sets. *)
Record Options : Type := {
  o_in_path : string;
  o_out_path : string;
  o_chip_kib : Z;
  o_type : CartType;
  o_s64k_addr : Z;
  o_verify : bool
}.

(** One constructor per [die] call of the option loop. *)
Inductive UsageFailure : Type :=
| ChipNeedsValue                   (* line 89 *)
| UnsupportedChip                  (* line 92 *)
| TypeNeedsValue                   (* line 95 *)
| UnknownType                      (* line 100 *)
| AddrNeedsValue                   (* line 102 *)
| AddrOutOfRange                   (* line 104 *)
| UnknownOption (opt : string).    (* line 108 *)

Definition usage_message (f : UsageFailure) : string :=
  match f with
  | ChipNeedsValue => "--chip requires a value"
  | UnsupportedChip => "Unsupported --chip value (use 64, 128, 256, or 512)"
  | TypeNeedsValue => "--type requires a value"
  | UnknownType => "Unknown --type value (use mega|rc755|s64k)"
  | AddrNeedsValue => "--addr requires a value 0..7"
  | AddrOutOfRange => "--addr must be 0..7"
  | UnknownOption opt => "Unknown option: " +:+ opt
  end.

(** How reading the command line ends: the options, the usage text with
    [return 1] (line 76), a [die], or an [atoi] without a defined result. *)
Inductive parsed (A : Type) : Type :=
| Parsed (a : A)
| UsageShown
| Rejected (f : UsageFailure)
| ParseUndefined.

Arguments Parsed {A} a.
Arguments UsageShown {A}.
Arguments Rejected {A} f.
Arguments ParseUndefined {A}.

Definition set_chip (o : Options) (n : Z) : Options :=
  {| o_in_path := o_in_path o; o_out_path := o_out_path o; o_chip_kib := n;
     o_type := o_type o; o_s64k_addr := o_s64k_addr o;
     o_verify := o_verify o |}.

Definition set_type (o : Options) (t : CartType) : Options :=
  {| o_in_path := o_in_path o; o_out_path := o_out_path o;
     o_chip_kib := o_chip_kib o; o_type := t;
     o_s64k_addr := o_s64k_addr o; o_verify := o_verify o |}.

Definition set_addr (o : Options) (n : Z) : Options :=
  {| o_in_path := o_in_path o; o_out_path := o_out_path o;
     o_chip_kib := o_chip_kib o; o_type := o_type o; o_s64k_addr := n;
     o_verify := o_verify o |}.

Definition set_verify (o : Options) : Options :=
  {| o_in_path := o_in_path o; o_out_path := o_out_path o;
     o_chip_kib := o_chip_kib o; o_type := o_type o;
     o_s64k_addr := o_s64k_addr o; o_verify := true |}.

(** Lines 97-100: the names of the cartridge types. *)
Definition type_of_name (v : string) : option CartType :=
  if (v =? "mega")%string || (v =? "scc")%string || (v =? "megascc")%string
  then Some MegaSCC
  else if (v =? "rc755")%string then Some RC755
  else if (v =? "s64k")%string || (v =? "simple64k")%string
  then Some Simple64K
  else None.

(** Lines 86-110: the option loop over [argv[3..]]. *)
Fixpoint parse_options (args : list string) (o : Options) : parsed Options :=
  match args with
  | [] => Parsed o
  | opt :: rest =>
      if (opt =? "--chip")%string then
        match rest with
        | [] => Rejected ChipNeedsValue
        | v :: rest' =>
            match atoi v with
            | Done n =>
                if negb ((n =? 64) || (n =? 128) || (n =? 256) || (n =? 512))
                then Rejected UnsupportedChip
                else parse_options rest' (set_chip o n)
            | _ => ParseUndefined
            end
        end
      else if (opt =? "--type")%string then
        match rest with
        | [] => Rejected TypeNeedsValue
        | v :: rest' =>
            match type_of_name v with
            | Some t => parse_options rest' (set_type o t)
            | None => Rejected UnknownType
            end
        end
      else if (opt =? "--addr")%string then
        match rest with
        | [] => Rejected AddrNeedsValue
        | v :: rest' =>
            match atoi v with
            | Done n =>
                if (n <? 0) || (n >? 7) then Rejected AddrOutOfRange
                else parse_options rest' (set_addr o n)
            | _ => ParseUndefined
            end
        end
      else if (opt =? "--verify")%string then
        parse_options rest (set_verify o)
      else Rejected (UnknownOption opt)
  end.

(** Lines 72-110: [argv] with the program name first. *)
Definition parse_args (argv : list string) : parsed Options :=
  match argv with
  | _ :: in_path :: out_path :: args =>
      parse_options args
        {| o_in_path := in_path; o_out_path := out_path; o_chip_kib := 128;
           o_type := MegaSCC; o_s64k_addr := -1; o_verify := false |}
  | _ => UsageShown
  end.

(** ** The whole program, with its files (lines 47 to 67 and 71 to 222) *)

(** The files that can be opened and read, by path. *)
Abbreviation Files := (gmap string (list byte)).

(** What a run cannot know of a path before it writes: [None] when the
    path cannot be opened for writing, [Some n] when it can and takes [n]
    bytes before a write fails. *)
Abbreviation Room := (string -> option nat).

Module FS.

(** [read_file] (lines 47-60): the bytes of the file, or the text handed
    to [die] when it cannot be opened. A file that opens is read in full:
    the failures of [tellg] and [read] (lines 52 and 57) are left out. *)
Definition read_file (path : string) (fs : Files) : string + list byte :=
  match fs !! path with
  | Some buf => inr buf
  | None => inl ("Cannot open input file: " +:+ path)
  end.

(** [write_file] (lines 62-67). A path that cannot be opened is left as
    it is (line 64). Opening truncates the file; when the write fails the
    file holds what went out before (line 66). The result is the text
    handed to [die], if any, and the files afterwards; a file that was
    written is among them, so it can be read back. *)
Definition write_file (room : Room) (path : string) (buf : list byte)
    (fs : Files) : option string * Files :=
  match room path with
  | None => (Some ("Cannot open output file: " +:+ path), fs)
  | Some n =>
      if (length buf <=? n)%nat then (None, <[path := buf]> fs)
      else (Some "Failed to write output file", <[path := take n buf]> fs)
  end.

End FS.

(** How a run ends: [return] or [die] with its message. *)
Inductive ending : Type :=
| Returned (code : Z)
| Died (msg : string).

(** A run: its ending, what it printed on standard output and the files
    afterwards; or nothing at all, when the run has no defined behaviour
    (an [atoi] out of range, an access past the end of a vector). *)
Inductive run : Type :=
| Ended (e : ending) (text : string) (files : Files)
| NoMeaning.

Definition type_name (t : CartType) : string :=
  match t with
  | MegaSCC => "MegaSCC"
  | RC755 => "RC755"
  | Simple64K => "Simple64K"
  end.

(** Lines 185-192: the report, before the result of [--verify]. *)
Definition report (o : Options) (in_banks start_bank : Z) : string :=
  "Type: " +:+ type_name (o_type o) +:+ ", chip: " +:+ pretty (o_chip_kib o)
  +:+ " KiB, banks written: " +:+ to_string in_banks
  +:+ ", start bank: " +:+ to_string start_bank +:+ ", bank size: 8 KiB".

Definition newline : string := String (Ascii.ascii_of_nat 10) EmptyString.

(** The run of [main] on a command line and a file system. *)
Definition program (room : Room) (argv : list string) (fs : Files) : run :=
  match parse_args argv with
  | UsageShown => Ended (Returned 1) EmptyString fs
  | Rejected f => Ended (Died (usage_message f)) EmptyString fs
  | ParseUndefined => NoMeaning
  | Parsed o =>
      match FS.read_file (o_in_path o) fs with
      | inl msg => Ended (Died msg) EmptyString fs
      | inr input =>
          match convert (o_chip_kib o) (o_type o) (o_s64k_addr o) input with
          | Exit f => Ended (Died (message f)) EmptyString fs
          | Undefined => NoMeaning
          | Done (out, start_bank, in_banks) =>
              match FS.write_file room (o_out_path o) out fs with
              | (Some msg, fs') => Ended (Died msg) EmptyString fs'
              | (None, fs') =>
                  let text := report o in_banks start_bank in
                  if o_verify o then
                    match
                      vb <- (match fs' !! o_out_path o with
                             | Some vb => Done vb
                             | None => die VerifyReadBackFailed
                             end) ;;
                      verify_pass vb (pad_rom input) start_bank in_banks
                    with
                    | Done _ =>
                        Ended (Returned 0)
                          (text +:+ "; verify: OK" +:+ newline) fs'
                    | Exit f => Ended (Died (message f)) text fs'
                    | Undefined => NoMeaning
                    end
                  else Ended (Returned 0) (text +:+ newline) fs'
              end
          end
      end
  end.

(** A path that takes any write, and one that takes none of it. *)
Definition roomy : Room := fun _ => Some (Z.to_nat 1048576).

Definition full : Room := fun _ => Some 0%nat.

(** Words for the statements about the command line. *)
Definition starts_with_digit (s : string) : bool :=
  match s with
  | String c _ => match digit_value c with Some _ => true | None => false end
  | EmptyString => false
  end.

Definition after_sign (s : string) : string :=
  match s with
  | String "-"%char s' => s'
  | String "+"%char s' => s'
  | _ => s
  end.

Fixpoint all_digits (s : string) : bool :=
  match s with
  | String c s' =>
      match digit_value c with Some _ => all_digits s' | None => false end
  | EmptyString => true
  end.

(** The values the option loop starts from (lines 72 and 81-83). *)
Definition default_options (in_path out_path : string) : Options :=
  {| o_in_path := in_path; o_out_path := out_path; o_chip_kib := 128;
     o_type := MegaSCC; o_s64k_addr := -1; o_verify := false |}.

Definition is_negative (s : string) : bool :=
  match s with
  | String "-"%char _ => true
  | _ => false
  end.

(** * Proofs *)

(** ** Arithmetic that does not wrap *)

Lemma BANK_SIZE_eq : BANK_SIZE = 8192.
Proof. reflexivity. Qed.

Lemma modulus_eq : SizeT.modulus = 18446744073709551616.
Proof. reflexivity. Qed.

Lemma max_size_eq : SizeT.max_size = 9223372036854775807.
Proof. reflexivity. Qed.

Lemma cast_small x : 0 <= x < SizeT.modulus -> SizeT.cast x = x.
Proof. intros H. unfold SizeT.cast. now apply Z.mod_small. Qed.

Lemma add_small a b : 0 <= a + b < SizeT.modulus -> SizeT.add a b = a + b.
Proof. apply cast_small. Qed.

Lemma sub_small a b : 0 <= a - b < SizeT.modulus -> SizeT.sub a b = a - b.
Proof. apply cast_small. Qed.

Lemma mul_small a b : 0 <= a * b < SizeT.modulus -> SizeT.mul a b = a * b.
Proof. apply cast_small. Qed.

Lemma size_nonneg {A} (v : list A) : 0 <= SizeT.size v.
Proof. unfold SizeT.size. lia. Qed.

(** Numbers in the open: the constants are replaced by their values. *)
Ltac numbers :=
  rewrite ?BANK_SIZE_eq, ?modulus_eq, ?max_size_eq in *.

Ltac arith :=
  numbers; unfold SizeT.size in *;
  try lia; Z.to_euclidean_division_equations; lia.

(** Drop the wrap-around where the operands are small enough. *)
Ltac unwrap :=
  repeat match goal with
  | |- context [SizeT.add ?a ?b] => rewrite (add_small a b) by arith
  | |- context [SizeT.sub ?a ?b] => rewrite (sub_small a b) by arith
  | |- context [SizeT.mul ?a ?b] => rewrite (mul_small a b) by arith
  | |- context [SizeT.cast ?a] => rewrite (cast_small a) by arith
  end.

Lemma byte_neqb a b : negb (Byte.eqb a b) = true <-> a <> b.
Proof.
  destruct (Byte.eqb a b) eqn:E; simpl.
  - apply Byte.byte_dec_bl in E. split; [discriminate | congruence].
  - apply Byte.eqb_false in E. tauto.
Qed.

Lemma byte_neqb_false a b : negb (Byte.eqb a b) = false <-> a = b.
Proof.
  destruct (Byte.eqb a b) eqn:E; simpl.
  - apply Byte.byte_dec_bl in E. tauto.
  - apply Byte.eqb_false in E. split; [discriminate | tauto].
Qed.

(** ** Padding *)

Lemma padded_size_bounds n :
  0 <= n -> n <= padded_size n < n + 8192 /\ padded_size n mod 8192 = 0.
Proof. intros H. unfold padded_size. arith. Qed.

Lemma pad_rom_app input :
  loadable input ->
  pad_rom input =
  input ++ replicate (Z.to_nat (padded_size (SizeT.size input)) - length input)
             fill_byte.
Proof.
  intros Hl. unfold loadable in Hl. unfold pad_rom, resize.
  pose proof (padded_size_bounds (SizeT.size input) (size_nonneg _)) as Hp.
  destruct (SizeT.size input mod BANK_SIZE =? 0) eqn:E; simpl.
  - apply Z.eqb_eq in E.
    replace (Z.to_nat (padded_size (SizeT.size input)) - length input)%nat
      with 0%nat.
    + simpl. now rewrite app_nil_r.
    + unfold padded_size in *. arith.
  - apply Z.eqb_neq in E.
    assert (SizeT.mul
              (SizeT.sub (SizeT.add (SizeT.size input) BANK_SIZE) 1 / BANK_SIZE)
              BANK_SIZE = padded_size (SizeT.size input)) as ->.
    { unfold padded_size in *. unwrap.
      numbers. f_equal. f_equal. lia. }
    rewrite take_ge; [reflexivity |]. arith.
Qed.

Lemma pad_rom_size input :
  loadable input ->
  SizeT.size (pad_rom input) = padded_size (SizeT.size input).
Proof.
  intros Hl. rewrite pad_rom_app by assumption.
  pose proof (padded_size_bounds (SizeT.size input) (size_nonneg _)) as Hp.
  unfold SizeT.size in *. rewrite length_app, length_replicate. lia.
Qed.

Lemma pad_rom_lookup_input input (o : nat) :
  loadable input -> (o < length input)%nat ->
  pad_rom input !! o = input !! o.
Proof.
  intros Hl Ho. rewrite pad_rom_app by assumption.
  now rewrite lookup_app_l.
Qed.

Lemma pad_rom_lookup_fill input (o : nat) :
  loadable input -> (length input <= o < length (pad_rom input))%nat ->
  pad_rom input !! o = Some fill_byte.
Proof.
  intros Hl Ho. rewrite pad_rom_app in * by assumption.
  rewrite length_app, length_replicate in Ho.
  rewrite lookup_app_r by lia. apply lookup_replicate_2. lia.
Qed.

(** ** Copying one bank *)

Lemma memcpy_spec dst dst_off src src_off n :
  0 <= dst_off -> 0 <= src_off -> 0 <= n ->
  dst_off + n <= SizeT.size dst -> src_off + n <= SizeT.size src ->
  exists out,
    memcpy dst dst_off src src_off n = Done out /\
    length out = length dst /\
    (forall o : nat, dst_off <= Z.of_nat o < dst_off + n ->
       out !! o = src !! Z.to_nat (src_off + (Z.of_nat o - dst_off))) /\
    (forall o : nat, ~ dst_off <= Z.of_nat o < dst_off + n ->
       out !! o = dst !! o).
Proof.
  intros Hd Hs Hn Hdst Hsrc. unfold memcpy.
  destruct (dst_off + n <=? SizeT.size dst) eqn:E1; [| lia].
  destruct (src_off + n <=? SizeT.size src) eqn:E2; [| lia].
  simpl. eexists. split; [reflexivity |].
  unfold SizeT.size in *.
  assert (length (take (Z.to_nat dst_off) dst) = Z.to_nat dst_off) as Lt
    by (rewrite length_take; lia).
  assert (length (take (Z.to_nat n) (drop (Z.to_nat src_off) src))
          = Z.to_nat n) as Lm
    by (rewrite length_take, length_drop; lia).
  split; [| split].
  - rewrite !length_app, Lt, Lm, length_drop. lia.
  - intros o Ho.
    rewrite lookup_app_r by lia. rewrite Lt.
    rewrite lookup_app_l by lia.
    rewrite lookup_take_lt by lia. rewrite lookup_drop. f_equal. lia.
  - intros o Ho.
    destruct (Z_lt_dec (Z.of_nat o) dst_off) as [Hlt | Hge].
    + rewrite lookup_app_l by lia. apply lookup_take_lt. lia.
    + rewrite lookup_app_r by lia. rewrite Lt.
      rewrite lookup_app_r by lia. rewrite Lm.
      rewrite lookup_drop. f_equal. lia.
Qed.

(** ** The placement loop *)

Lemma place_banks_from_S todo bank start_bank rom out :
  place_banks_from (S todo) bank start_bank rom out =
  (die_if (SizeT.add (SizeT.mul (SizeT.add start_bank bank) BANK_SIZE)
                     BANK_SIZE >? SizeT.size out) OutputOverflow ;;;
   out' <- memcpy out (SizeT.mul (SizeT.add start_bank bank) BANK_SIZE)
                  rom (SizeT.mul bank BANK_SIZE) BANK_SIZE ;;
   place_banks_from todo (SizeT.add bank 1) start_bank rom out').
Proof. reflexivity. Qed.

(** The only exit of the loop is the overflow check. *)
Lemma place_banks_from_exit todo : forall bank start_bank rom out f,
  place_banks_from todo bank start_bank rom out = Exit f -> f = OutputOverflow.
Proof.
  induction todo as [| todo IH]; intros bank start_bank rom out f H.
  - discriminate.
  - rewrite place_banks_from_S in H. unfold die_if, die in H.
    destruct (_ >? _); simpl in H; [congruence |].
    unfold memcpy in H.
    destruct (_ && _); simpl in H; [eauto | discriminate].
Qed.

(** When the destination and the source hold the banks, the loop ends
    normally, keeps the length and changes exactly the placed range. *)
Lemma place_banks_from_spec start_bank rom todo : forall bank out,
  0 <= start_bank -> 0 <= bank ->
  (start_bank + bank + Z.of_nat todo) * BANK_SIZE <= SizeT.size out ->
  SizeT.size out <= SizeT.max_size ->
  (bank + Z.of_nat todo) * BANK_SIZE <= SizeT.size rom ->
  SizeT.size rom <= SizeT.max_size ->
  exists out',
    place_banks_from todo bank start_bank rom out = Done out' /\
    length out' = length out /\
    (forall o : nat,
       (start_bank + bank) * BANK_SIZE <= Z.of_nat o
         < (start_bank + bank + Z.of_nat todo) * BANK_SIZE ->
       out' !! o = rom !! Z.to_nat (Z.of_nat o - start_bank * BANK_SIZE)) /\
    (forall o : nat,
       ~ (start_bank + bank) * BANK_SIZE <= Z.of_nat o
           < (start_bank + bank + Z.of_nat todo) * BANK_SIZE ->
       out' !! o = out !! o).
Proof.
  induction todo as [| todo IH]; intros bank out Hs Hb Hout Hmax Hrom Hrmax.
  - exists out. simpl. split; [reflexivity |]. split; [reflexivity |].
    split; [intros o Ho; lia | reflexivity].
  - rewrite place_banks_from_S. unwrap.
    destruct (memcpy_spec out ((start_bank + bank) * BANK_SIZE) rom
                (bank * BANK_SIZE) BANK_SIZE)
      as (out1 & E1 & L1 & In1 & Out1); try arith.
    unfold die_if.
    destruct (_ >? _) eqn:E; [arith |]. simpl. rewrite E1. simpl.
    destruct (IH (bank + 1) out1) as (out' & E' & L' & In' & Out');
      try (unfold SizeT.size in *; rewrite ?L1; arith).
    exists out'. split; [assumption |]. split; [congruence |]. split.
    + intros o Ho.
      destruct (Z_lt_dec (Z.of_nat o) ((start_bank + bank + 1) * BANK_SIZE))
        as [Hlt | Hge].
      * rewrite Out' by arith. rewrite In1 by arith. f_equal. arith.
      * apply In'. arith.
    + intros o Ho. rewrite Out' by arith. apply Out1. arith.
Qed.

(** ** The conversion as a whole *)

Lemma window_exceeded_or_not type input :
  window_exceeded type input \/ ~ window_exceeded type input.
Proof.
  unfold window_exceeded.
  destruct type; try (right; intros [? ?]; discriminate).
  destruct (Z_gt_dec (bank_count input) 8); [left | right]; tauto.
Qed.

Lemma addr_exceeded_or_not type s64k_addr input :
  addr_exceeded type s64k_addr input \/ ~ addr_exceeded type s64k_addr input.
Proof.
  unfold addr_exceeded.
  destruct type; try (right; intros [? ?]; discriminate).
  destruct (Z_le_dec 0 s64k_addr);
    destruct (Z_gt_dec (s64k_addr + bank_count input) 8);
    solve [left; tauto | right; tauto].
Qed.

Lemma placed_iff start_bank in_banks o :
  placed start_bank in_banks o <->
  start_bank * 8192 <= o < (start_bank + in_banks) * 8192.
Proof.
  unfold placed. split.
  - intros (i & Hi & Ho). lia.
  - intros Ho. exists (o / 8192 - start_bank).
    Z.to_euclidean_division_equations. lia.
Qed.

Lemma chip_bytes_eq chip_kib :
  valid_chip chip_kib ->
  SizeT.mul (SizeT.cast chip_kib) 1024 = chip_capacity chip_kib.
Proof.
  unfold valid_chip, chip_capacity. intros H.
  rewrite (cast_small chip_kib) by arith. apply mul_small. arith.
Qed.

Lemma chip_capacity_min chip_kib :
  valid_chip chip_kib -> 65536 <= chip_capacity chip_kib <= 524288.
Proof. unfold valid_chip, chip_capacity. lia. Qed.

Lemma bank_count_facts input :
  loadable input ->
  0 <= bank_count input /\
  bank_count input * 8192 = normalized_size input /\
  SizeT.size input <= normalized_size input < SizeT.size input + 8192 /\
  normalized_size input <= SizeT.max_size.
Proof.
  intros Hl. unfold bank_count, normalized_size.
  rewrite pad_rom_size by assumption.
  pose proof (padded_size_bounds (SizeT.size input) (size_nonneg _)) as Hp.
  unfold loadable in Hl. pose proof (size_nonneg input). arith.
Qed.

Lemma within_window input :
  ~ window_exceeded Simple64K input -> bank_count input <= 8.
Proof.
  intros H. apply Z.nlt_ge. intros ?. apply H. split; [reflexivity | lia].
Qed.

Lemma within_addr s64k_addr input :
  ~ addr_exceeded Simple64K s64k_addr input ->
  0 <= s64k_addr -> s64k_addr + bank_count input <= 8.
Proof.
  intros H ?. apply Z.nlt_ge. intros ?. apply H.
  split; [reflexivity | lia].
Qed.

Lemma check_capacity_ok chip_kib type input :
  ~ window_exceeded type input -> ~ chip_exceeded chip_kib input ->
  check_capacity type (bank_count input) (normalized_size input)
    (chip_capacity chip_kib) = Done tt.
Proof.
  intros Hw Hc. unfold chip_exceeded in Hc.
  assert ((normalized_size input >? chip_capacity chip_kib) = false) as Hc'
    by lia.
  unfold check_capacity. rewrite Hc'.
  destruct type; [reflexivity | reflexivity |].
  apply within_window in Hw.
  assert ((bank_count input >? 8) = false) as -> by lia. reflexivity.
Qed.

Section Conversion.

Variables (chip_kib : Z) (type : CartType) (s64k_addr : Z).
Variable input : list byte.

Hypothesis Hchip : valid_chip chip_kib.
Hypothesis Haddr : valid_addr s64k_addr.
Hypothesis Hload : loadable input.

Lemma convert_body :
  convert chip_kib type s64k_addr input =
  (check_capacity type (bank_count input) (normalized_size input)
     (chip_capacity chip_kib) ;;;
   start_bank <- compute_start_bank type s64k_addr (normalized_size input)
                   (bank_count input) ;;
   out' <- place_banks start_bank (bank_count input) (pad_rom input)
             (replicate (Z.to_nat (chip_capacity chip_kib)) fill_byte) ;;
   Done (out', start_bank, bank_count input)).
Proof using Hchip. unfold convert. now rewrite chip_bytes_eq. Qed.

(** The resolver, once the capacity checks are behind. *)
Lemma compute_start_bank_ok :
  ~ window_exceeded type input -> ~ addr_exceeded type s64k_addr input ->
  compute_start_bank type s64k_addr (normalized_size input)
    (bank_count input) =
  Done (resolved_start type s64k_addr (normalized_size input)).
Proof using Haddr Hload.
  intros Hw Ha.
  destruct (bank_count_facts input Hload) as (Hb0 & Hb & Hsz & Hmax).
  unfold valid_addr in Haddr.
  destruct type; try reflexivity.
  apply within_window in Hw. pose proof (within_addr _ _ Ha) as Ha'.
  unfold compute_start_bank, resolved_start, die_if.
  destruct (s64k_addr >=? 0) eqn:E.
  - unwrap. destruct (_ >? 8) eqn:E'; [lia | reflexivity].
  - destruct (normalized_size input / 1024 <=? 32) eqn:E32.
    + unwrap. destruct (_ >? 8) eqn:E'; [arith | reflexivity].
    + unwrap. destruct (_ >? 8) eqn:E'; [lia | reflexivity].
Qed.

Lemma resolved_start_fits :
  ~ window_exceeded type input -> ~ chip_exceeded chip_kib input ->
  ~ addr_exceeded type s64k_addr input ->
  let start_bank := resolved_start type s64k_addr (normalized_size input) in
  0 <= start_bank /\
  (start_bank + bank_count input) * 8192 <= chip_capacity chip_kib.
Proof using Hchip Haddr Hload.
  intros Hw Hc Ha. unfold chip_exceeded in *.
  destruct (bank_count_facts input Hload) as (Hb0 & Hb & Hsz & Hmax).
  pose proof (chip_capacity_min chip_kib Hchip) as Hcap.
  unfold valid_addr in Haddr. unfold resolved_start.
  destruct type; simpl; try lia.
  apply within_window in Hw. pose proof (within_addr _ _ Ha) as Ha'.
  destruct (s64k_addr >=? 0) eqn:E; [lia |].
  destruct (normalized_size input / 1024 <=? 32) eqn:E32; [arith | lia].
Qed.

Lemma convert_finishes :
  ~ window_exceeded type input -> ~ chip_exceeded chip_kib input ->
  ~ addr_exceeded type s64k_addr input ->
  finished chip_kib type s64k_addr input.
Proof using Hchip Haddr Hload.
  intros Hw Hc Ha. unfold finished.
  destruct (resolved_start_fits Hw Hc Ha) as (Hs0 & Hfit).
  destruct (bank_count_facts input Hload) as (Hb0 & Hb & Hsz & Hmax).
  pose proof (chip_capacity_min chip_kib Hchip) as Hcap.
  set (start_bank := resolved_start type s64k_addr (normalized_size input))
    in *.
  set (out0 := replicate (Z.to_nat (chip_capacity chip_kib)) fill_byte).
  assert (SizeT.size out0 = chip_capacity chip_kib) as Hlen0.
  { unfold SizeT.size, out0. rewrite length_replicate. lia. }
  destruct (place_banks_from_spec start_bank (pad_rom input)
              (Z.to_nat (bank_count input)) 0 out0)
    as (out & E & L & Hin & Hout);
    try (fold (normalized_size input); arith).
  exists out. rewrite convert_body.
  rewrite (check_capacity_ok _ _ _ Hw Hc).
  simpl. rewrite (compute_start_bank_ok Hw Ha). simpl.
  fold start_bank out0. unfold place_banks. rewrite E. simpl.
  split; [reflexivity |].
  split; [unfold SizeT.size in *; lia |].
  split; [assumption |]. split; [assumption |]. split.
  - intros o Ho. rewrite Hin by arith. now rewrite BANK_SIZE_eq.
  - intros o Ho Hn. rewrite Hout by arith.
    apply lookup_replicate_2. lia.
Qed.

(** The four ways a conversion ends. *)
Lemma convert_cases :
  (window_exceeded type input /\
   convert chip_kib type s64k_addr input = Exit RomTooLargeForSimple64K) \/
  (~ window_exceeded type input /\ chip_exceeded chip_kib input /\
   convert chip_kib type s64k_addr input = Exit RomLargerThanChip) \/
  (~ window_exceeded type input /\ ~ chip_exceeded chip_kib input /\
   addr_exceeded type s64k_addr input /\
   convert chip_kib type s64k_addr input = Exit AddrExceedsWindow) \/
  (~ window_exceeded type input /\ ~ chip_exceeded chip_kib input /\
   ~ addr_exceeded type s64k_addr input /\
   finished chip_kib type s64k_addr input).
Proof using Hchip Haddr Hload.
  destruct (bank_count_facts input Hload) as (Hb0 & Hb & Hsz & Hmax).
  destruct (window_exceeded_or_not type input) as [Hw | Hw].
  { left. split; [assumption |]. destruct Hw as [Et H8].
    rewrite convert_body, Et.
    assert ((bank_count input >? 8) = true) as E by lia.
    unfold check_capacity. now rewrite E. }
  right.
  destruct (Z_gt_dec (normalized_size input) (chip_capacity chip_kib))
    as [Hc | Hc].
  { left. split; [assumption |]. split; [assumption |].
    assert ((normalized_size input >? chip_capacity chip_kib) = true) as Hc'
      by lia.
    rewrite convert_body. unfold check_capacity. rewrite Hc'.
    destruct type; [reflexivity | reflexivity |].
    apply within_window in Hw.
    assert ((bank_count input >? 8) = false) as -> by lia. reflexivity. }
  right. fold (chip_exceeded chip_kib input) in Hc.
  destruct (addr_exceeded_or_not type s64k_addr input) as [Ha | Ha].
  - left. split; [assumption |]. split; [assumption |].
    split; [assumption |]. destruct Ha as (Et & H0 & Hx).
    rewrite convert_body, (check_capacity_ok _ _ _ Hw Hc). simpl.
    rewrite Et in *. apply within_window in Hw.
    unfold compute_start_bank, die_if. unfold valid_addr in Haddr.
    destruct (s64k_addr >=? 0) eqn:E0; [| lia].
    unwrap. destruct (_ >? 8) eqn:E''; [reflexivity | lia].
  - right. split; [assumption |]. split; [assumption |].
    split; [assumption |]. now apply convert_finishes.
Qed.

End Conversion.

(** ** The verify pass *)

Lemma read_in_range (v : list byte) (i : Z) :
  0 <= i < SizeT.size v ->
  exists b, v !! Z.to_nat i = Some b /\ read v i = Done b.
Proof.
  intros Hi. unfold read.
  destruct (lookup_lt_is_Some_2 v (Z.to_nat i)) as [b Hb];
    [unfold SizeT.size in Hi; lia |].
  exists b. now rewrite Hb.
Qed.

Lemma verify_bank_from_S todo i vb rom dst_off bank :
  verify_bank_from (S todo) i vb rom dst_off bank =
  (a <- read vb (SizeT.add dst_off i) ;;
   b <- read rom (SizeT.add (SizeT.mul bank BANK_SIZE) i) ;;
   die_if (negb (Byte.eqb a b)) (VerifyBankMismatch bank) ;;;
   verify_bank_from todo (SizeT.add i 1) vb rom dst_off bank).
Proof. reflexivity. Qed.

(** One bank: the loop ends normally when all its bytes agree, and stops
    with the bank's number when one does not. *)
Lemma verify_bank_from_spec vb rom dst_off bank todo : forall i,
  0 <= i -> 0 <= dst_off -> 0 <= bank ->
  dst_off + i + Z.of_nat todo <= SizeT.size vb ->
  SizeT.size vb <= SizeT.max_size ->
  bank * 8192 + i + Z.of_nat todo <= SizeT.size rom ->
  SizeT.size rom <= SizeT.max_size ->
  ((forall j, i <= j < i + Z.of_nat todo ->
      vb !! Z.to_nat (dst_off + j) = rom !! Z.to_nat (bank * 8192 + j)) /\
   verify_bank_from todo i vb rom dst_off bank = Done tt)
  \/
  ((exists j, i <= j < i + Z.of_nat todo /\
      vb !! Z.to_nat (dst_off + j) <> rom !! Z.to_nat (bank * 8192 + j)) /\
   verify_bank_from todo i vb rom dst_off bank =
     Exit (VerifyBankMismatch bank)).
Proof.
  induction todo as [| todo IH]; intros i Hi Hd Hb Hvb Hvmax Hrom Hrmax.
  - left. split; [intros j Hj; lia | reflexivity].
  - rewrite verify_bank_from_S. unwrap. rewrite BANK_SIZE_eq.
    destruct (read_in_range vb (dst_off + i)) as (a & La & ->); [lia |].
    destruct (read_in_range rom (bank * 8192 + i)) as (b & Lb & ->); [lia |].
    simpl. unfold die_if.
    destruct (negb (Byte.eqb a b)) eqn:E.
    + apply byte_neqb in E. right. split; [| reflexivity].
      exists i. split; [lia |]. rewrite La, Lb. congruence.
    + apply byte_neqb_false in E. subst b. simpl.
      destruct (IH (i + 1)) as [[Hall ->] | [(j & Hj & Hne) ->]]; try lia.
      * left. split; [| reflexivity]. intros j Hj.
        destruct (Z.eq_dec j i) as [-> | Hne]; [congruence |].
        apply Hall. lia.
      * right. split; [| reflexivity]. exists j. split; [lia | assumption].
Qed.

Lemma verify_banks_from_S todo bank vb rom start_bank :
  verify_banks_from (S todo) bank vb rom start_bank =
  (verify_bank_from (Z.to_nat BANK_SIZE) 0 vb rom
     (SizeT.mul (SizeT.add start_bank bank) BANK_SIZE) bank ;;;
   verify_banks_from todo (SizeT.add bank 1) vb rom start_bank).
Proof. reflexivity. Qed.

(** All banks: the loop stops at the lowest bank that differs. *)
Lemma verify_banks_from_spec vb rom start_bank todo : forall bank,
  0 <= start_bank -> 0 <= bank ->
  (start_bank + bank + Z.of_nat todo) * 8192 <= SizeT.size vb ->
  SizeT.size vb <= SizeT.max_size ->
  (bank + Z.of_nat todo) * 8192 <= SizeT.size rom ->
  SizeT.size rom <= SizeT.max_size ->
  ((forall b, bank <= b < bank + Z.of_nat todo ->
      ~ bank_differs vb rom start_bank b) /\
   verify_banks_from todo bank vb rom start_bank = Done tt)
  \/
  (exists b, bank <= b < bank + Z.of_nat todo /\
     bank_differs vb rom start_bank b /\
     (forall b', bank <= b' < b -> ~ bank_differs vb rom start_bank b') /\
     verify_banks_from todo bank vb rom start_bank =
       Exit (VerifyBankMismatch b)).
Proof.
  induction todo as [| todo IH]; intros bank Hs Hb Hvb Hvmax Hrom Hrmax.
  - left. split; [intros b Hb'; lia | reflexivity].
  - rewrite verify_banks_from_S. unwrap. rewrite BANK_SIZE_eq.
    destruct (verify_bank_from_spec vb rom ((start_bank + bank) * 8192) bank
                (Z.to_nat 8192) 0)
      as [[Hall ->] | [(j & Hj & Hne) ->]]; try lia.
    + simpl.
      assert (~ bank_differs vb rom start_bank bank) as Hsame.
      { intros (j & Hj & Hne). apply Hne. rewrite Hall by lia. reflexivity. }
      destruct (IH (bank + 1)) as [[Hrest ->] | (b & Hb' & Hd & Hfirst & ->)];
        try lia.
      * left. split; [| reflexivity]. intros b Hb'.
        destruct (Z.eq_dec b bank) as [-> | Hne]; [assumption |].
        apply Hrest. lia.
      * right. exists b. split; [lia |]. split; [assumption |].
        split; [| reflexivity]. intros b' Hb''.
        destruct (Z.eq_dec b' bank) as [-> | Hne]; [assumption |].
        apply Hfirst. lia.
    + right. exists bank. split; [lia |]. split.
      * exists j. split; [lia | assumption].
      * split; [intros b' Hb'; lia | reflexivity].
Qed.

Lemma verify_fill_from_S todo i vb start_bank in_banks :
  verify_fill_from (S todo) i vb start_bank in_banks =
  ((if negb ((i / BANK_SIZE >=? start_bank)
             && (i / BANK_SIZE <? SizeT.add start_bank in_banks)) then
      b <- read vb i ;;
      die_if (negb (Byte.eqb b fill_byte)) VerifyNonFF
    else Done tt) ;;;
   verify_fill_from todo (SizeT.add i 1) vb start_bank in_banks).
Proof. reflexivity. Qed.

(** The test of line 215 is membership in the written ranges. *)
Lemma within_written_placed start_bank in_banks i :
  0 <= start_bank -> 0 <= in_banks -> 0 <= i ->
  start_bank + in_banks < SizeT.modulus ->
  (i / BANK_SIZE >=? start_bank)
  && (i / BANK_SIZE <? SizeT.add start_bank in_banks) = true
  <-> placed start_bank in_banks i.
Proof.
  intros Hs Hn Hi Hm. rewrite placed_iff. unwrap.
  rewrite andb_true_iff, BANK_SIZE_eq.
  split; intros H; [| split]; Z.to_euclidean_division_equations; lia.
Qed.

(** The rest of the image: the loop stops at the first byte outside the
    written ranges that is not 0xFF. *)
Lemma verify_fill_from_spec vb start_bank in_banks todo : forall i,
  0 <= start_bank -> 0 <= in_banks ->
  start_bank + in_banks < SizeT.modulus ->
  0 <= i -> i + Z.of_nat todo = SizeT.size vb ->
  SizeT.size vb <= SizeT.max_size ->
  ((forall o, i <= o < i + Z.of_nat todo ->
      ~ stray_byte vb start_bank in_banks o) /\
   verify_fill_from todo i vb start_bank in_banks = Done tt)
  \/
  (exists o, i <= o < i + Z.of_nat todo /\
     stray_byte vb start_bank in_banks o /\
     (forall o', i <= o' < o -> ~ stray_byte vb start_bank in_banks o') /\
     verify_fill_from todo i vb start_bank in_banks = Exit VerifyNonFF).
Proof.
  induction todo as [| todo IH]; intros i Hs Hn Hm Hi Hlen Hmax.
  - left. split; [intros o Ho; lia | reflexivity].
  - rewrite verify_fill_from_S.
    pose proof (within_written_placed start_bank in_banks i Hs Hn Hi Hm)
      as Hw.
    destruct (read_in_range vb i) as (b & Lb & Rb); [lia |].
    assert (SizeT.add i 1 = i + 1) as -> by (apply add_small; arith).
    destruct ((i / BANK_SIZE >=? start_bank)
              && (i / BANK_SIZE <? SizeT.add start_bank in_banks)) eqn:E;
      simpl.
    + assert (~ stray_byte vb start_bank in_banks i) as Hok
        by (intros (_ & Hnp & _); apply Hnp, Hw; reflexivity).
      destruct (IH (i + 1)) as [[Hall ->] | (o & Ho & Hst & Hfirst & ->)];
        try lia.
      * left. split; [| reflexivity]. intros o Ho.
        destruct (Z.eq_dec o i) as [-> | Hne]; [assumption |].
        apply Hall. lia.
      * right. exists o. split; [lia |]. split; [assumption |].
        split; [| reflexivity]. intros o' Ho'.
        destruct (Z.eq_dec o' i) as [-> | Hne]; [assumption |].
        apply Hfirst. lia.
    + assert (~ placed start_bank in_banks i) as Hnp
        by (intros Hp; apply Hw in Hp; discriminate).
      rewrite Rb. simpl. unfold die_if.
      destruct (negb (Byte.eqb b fill_byte)) eqn:Eb.
      * apply byte_neqb in Eb. right. exists i. split; [lia |]. split.
        { split; [lia |]. split; [assumption |]. rewrite Lb. congruence. }
        split; [intros o' Ho'; lia | reflexivity].
      * apply byte_neqb_false in Eb. subst b. simpl.
        assert (~ stray_byte vb start_bank in_banks i) as Hok
          by (intros (_ & _ & Hne); apply Hne; assumption).
        destruct (IH (i + 1)) as [[Hall ->] | (o & Ho & Hst & Hfirst & ->)];
          try lia.
        -- left. split; [| reflexivity]. intros o Ho.
           destruct (Z.eq_dec o i) as [-> | Hne]; [assumption |].
           apply Hall. lia.
        -- right. exists o. split; [lia |]. split; [assumption |].
           split; [| reflexivity]. intros o' Ho'.
           destruct (Z.eq_dec o' i) as [-> | Hne]; [assumption |].
           apply Hfirst. lia.
Qed.

(** The three ways the verify pass ends on an image that holds the
    written banks. *)
Lemma verify_pass_cases vb rom start_bank in_banks :
  readable vb rom start_bank in_banks ->
  ((forall b, 0 <= b < in_banks -> ~ bank_differs vb rom start_bank b) /\
   (forall o, ~ stray_byte vb start_bank in_banks o) /\
   verify_pass vb rom start_bank in_banks = Done tt)
  \/
  (exists bank, first_bad_bank vb rom start_bank in_banks bank /\
     verify_pass vb rom start_bank in_banks =
       Exit (VerifyBankMismatch bank))
  \/
  ((forall b, 0 <= b < in_banks -> ~ bank_differs vb rom start_bank b) /\
   (exists o, first_stray_byte vb start_bank in_banks o) /\
   verify_pass vb rom start_bank in_banks = Exit VerifyNonFF).
Proof.
  intros (Hs & Hn & [Hvb Hvmax] & [Hrom Hrmax]). unfold verify_pass.
  destruct (verify_banks_from_spec vb rom start_bank (Z.to_nat in_banks) 0)
    as [[Hsame ->] | (b & Hb & Hd & Hfirst & ->)]; try lia.
  - simpl.
    destruct (verify_fill_from_spec vb start_bank in_banks (length vb) 0)
      as [[Hall ->] | (o & Ho & Hst & Hfirst & ->)];
      try (unfold SizeT.size in *; arith).
    + left. split; [intros b Hb; apply Hsame; lia |].
      split; [| reflexivity]. intros o Hst.
      apply (Hall o); [| assumption].
      destruct Hst as (Ho & _). unfold SizeT.size in Ho. lia.
    + right. right. split; [intros b Hb; apply Hsame; lia |].
      split; [| reflexivity]. exists o. split; [assumption |].
      intros o' Ho'. apply Hfirst. lia.
  - right. left. exists b. split; [| reflexivity].
    split; [lia |]. split; [assumption |].
    intros b' Hb'. apply Hfirst. lia.
Qed.

(** ** Where each failure can come from *)






(** ** What a finished conversion tells *)

Lemma convert_done_inv chip_kib type s64k_addr input out start_bank in_banks :
  valid_chip chip_kib -> valid_addr s64k_addr -> loadable input ->
  convert chip_kib type s64k_addr input = Done (out, start_bank, in_banks) ->
  start_bank = resolved_start type s64k_addr (normalized_size input) /\
  in_banks = bank_count input /\
  ~ window_exceeded type input /\ ~ chip_exceeded chip_kib input /\
  ~ addr_exceeded type s64k_addr input /\
  SizeT.size out = chip_capacity chip_kib /\
  0 <= start_bank /\
  (start_bank + in_banks) * 8192 <= chip_capacity chip_kib /\
  (forall o : nat,
     start_bank * 8192 <= Z.of_nat o < (start_bank + in_banks) * 8192 ->
     out !! o = pad_rom input !! Z.to_nat (Z.of_nat o - start_bank * 8192)) /\
  (forall o : nat,
     Z.of_nat o < chip_capacity chip_kib ->
     ~ start_bank * 8192 <= Z.of_nat o < (start_bank + in_banks) * 8192 ->
     out !! o = Some fill_byte).
Proof.
  intros Hchip Haddr Hload H.
  destruct (convert_cases chip_kib type s64k_addr input Hchip Haddr Hload)
    as [[_ E] | [(_ & _ & E) | [(_ & _ & _ & E) | (Hw & Hc & Ha & Hf)]]];
    try congruence.
  destruct Hf as (out' & E & Hlen & Hs0 & Hfit & Hin & Hout).
  rewrite E in H. inversion H; subst. tauto.
Qed.

(** The image of a finished conversion holds the written banks. *)
Lemma convert_done_readable chip_kib type s64k_addr input out start_bank
    in_banks :
  valid_chip chip_kib -> valid_addr s64k_addr -> loadable input ->
  convert chip_kib type s64k_addr input = Done (out, start_bank, in_banks) ->
  readable out (pad_rom input) start_bank in_banks.
Proof.
  intros Hchip Haddr Hload H.
  destruct (convert_done_inv _ _ _ _ _ _ _ Hchip Haddr Hload H)
    as (_ & -> & _ & _ & _ & Hlen & Hs0 & Hfit & _).
  destruct (bank_count_facts input Hload) as (Hb0 & Hb & Hsz & Hmax).
  pose proof (chip_capacity_min chip_kib Hchip) as Hcap.
  unfold readable. fold (normalized_size input). rewrite Hlen. arith.
Qed.

(** * The claims *)

Lemma sample_loadable : loadable sample_rom.
Proof. unfold loadable. vm_compute. discriminate. Qed.

(** Equations between concrete outcomes are settled by running both
    sides and comparing them. *)
Ltac by_running := apply (bool_decide_eq_true_1 _); vm_compute; reflexivity.

Lemma sample_convert :
  convert 64 Simple64K (-1) sample_rom = Done (sample_image, 2, 1).
Proof. by_running. Qed.

Lemma valid_chip_64 : valid_chip 64.
Proof. left. reflexivity. Qed.

Lemma valid_addr_none : valid_addr (-1).
Proof. unfold valid_addr. lia. Qed.

(** C1. When a conversion succeeds, the image (which is what the run
    leaves in the output file) has exactly [chip_kib * 1024] bytes; the
    byte at an offset [o] inside one of the ranges
    [(start_bank+i)*8192 .. +8192), [i < bank_count], is the byte of the
    padded ROM at [o - start_bank*8192]; every other byte is 0xFF. *)
Theorem C1_output_layout chip_kib type s64k_addr input out start_bank
    in_banks :
  valid_chip chip_kib -> valid_addr s64k_addr -> loadable input ->
  convert chip_kib type s64k_addr input = Done (out, start_bank, in_banks) ->
  (forall w, sink (snd (main false chip_kib type s64k_addr input w))
             = Some out) /\
  SizeT.size out = chip_kib * 1024 /\
  forall o, 0 <= o < chip_kib * 1024 ->
    (placed start_bank in_banks o ->
     exists b, pad_rom input !! Z.to_nat (o - start_bank * 8192) = Some b /\
               out !! Z.to_nat o = Some b) /\
    (~ placed start_bank in_banks o -> out !! Z.to_nat o = Some fill_byte).
Proof.
  intros Hchip Haddr Hload H.
  destruct (convert_done_inv _ _ _ _ _ _ _ Hchip Haddr Hload H)
    as (_ & Hn & _ & _ & _ & Hlen & Hs0 & Hfit & Hin & Hout).
  destruct (bank_count_facts input Hload) as (Hb0 & Hb & Hsz & Hmax).
  unfold chip_capacity in *.
  split; [intros w; unfold main; rewrite H; reflexivity |].
  split; [assumption |].
  intros o Ho. rewrite placed_iff. split.
  - intros Hp.
    destruct (lookup_lt_is_Some_2 (pad_rom input)
                (Z.to_nat (o - start_bank * 8192))) as [b Hb'].
    { unfold normalized_size, SizeT.size in *. lia. }
    exists b. split; [assumption |].
    rewrite Hin by lia. rewrite <- Hb'. f_equal. lia.
  - intros Hnp. apply Hout; lia.
Qed.

Lemma C1_output_layout_witness :
  (forall w, sink (snd (main false 64 Simple64K (-1) sample_rom w))
             = Some sample_image) /\
  SizeT.size sample_image = 64 * 1024 /\
  forall o, 0 <= o < 64 * 1024 ->
    (placed 2 1 o ->
     exists b, pad_rom sample_rom !! Z.to_nat (o - 2 * 8192) = Some b /\
               sample_image !! Z.to_nat o = Some b) /\
    (~ placed 2 1 o -> sample_image !! Z.to_nat o = Some fill_byte).
Proof.
  apply (C1_output_layout 64 Simple64K (-1) sample_rom sample_image 2 1
           valid_chip_64 valid_addr_none sample_loadable sample_convert).
Defined.

(** C2. Round trip: when [convert] succeeds, the verify pass run on the
    image it produced, with the padded ROM and the start bank and bank
    count it resolved, ends without a mismatch; so does the whole run with
    [--verify]. *)
Theorem C2_verify_after_convert chip_kib type s64k_addr input out start_bank
    in_banks :
  valid_chip chip_kib -> valid_addr s64k_addr -> loadable input ->
  convert chip_kib type s64k_addr input = Done (out, start_bank, in_banks) ->
  verify_pass out (pad_rom input) start_bank in_banks = Done tt /\
  forall w, main true chip_kib type s64k_addr input w
            = (Done tt, {| sink := Some out |}).
Proof.
  intros Hchip Haddr Hload H.
  assert (verify_pass out (pad_rom input) start_bank in_banks = Done tt)
    as Hv.
  { pose proof (convert_done_readable _ _ _ _ _ _ _ Hchip Haddr Hload H)
      as Hr.
    destruct (convert_done_inv _ _ _ _ _ _ _ Hchip Haddr Hload H)
      as (_ & _ & _ & _ & _ & Hlen & Hs0 & Hfit & Hin & Hout).
    destruct Hr as (_ & Hn0 & _ & _).
    destruct (verify_pass_cases out (pad_rom input) start_bank in_banks)
      as [(_ & _ & E) | [(b & Hbad & _) | (_ & (o & Hst & _) & _)]].
    - unfold readable. unfold SizeT.size in *.
      pose proof (convert_done_readable _ _ _ _ _ _ _ Hchip Haddr Hload H)
        as Hr. exact Hr.
    - exact E.
    - exfalso. destruct Hbad as (Hb & (j & Hj & Hne) & _).
      apply Hne.
      replace ((start_bank + b) * 8192 + j)
        with (Z.of_nat (Z.to_nat ((start_bank + b) * 8192 + j))) at 1 by lia.
      rewrite Nat2Z.id. rewrite Hin by lia. f_equal. lia.
    - exfalso. destruct Hst as (Ho & Hnp & Hne).
      rewrite placed_iff in Hnp. apply Hne, Hout; lia. }
  split; [exact Hv |].
  intros w. unfold main. rewrite H. simpl. now rewrite Hv.
Qed.

Lemma C2_verify_after_convert_witness :
  verify_pass sample_image (pad_rom sample_rom) 2 1 = Done tt /\
  forall w, main true 64 Simple64K (-1) sample_rom w
            = (Done tt, {| sink := Some sample_image |}).
Proof.
  apply (C2_verify_after_convert 64 Simple64K (-1) sample_rom sample_image 2 1
           valid_chip_64 valid_addr_none sample_loadable sample_convert).
Defined.

Lemma blank_rom_size n : 0 <= n -> SizeT.size (blank_rom n) = n.
Proof.
  intros H. unfold SizeT.size, blank_rom. rewrite length_replicate. lia.
Qed.

Lemma blank_rom_loadable n :
  0 <= n <= 1048576 -> loadable (blank_rom n).
Proof.
  intros H. unfold loadable. rewrite blank_rom_size by lia. arith.
Qed.

Lemma sized_banks input n :
  loadable input -> SizeT.size input = n ->
  normalized_size input = padded_size n /\
  bank_count input = padded_size n / 8192.
Proof.
  intros Hl <-. unfold bank_count, normalized_size.
  now rewrite pad_rom_size, BANK_SIZE_eq.
Qed.

(** C3. Simple64K without [--addr]: a conversion that succeeds starts at
    bank 2 when the padded size divided by 1024 is at most 32 and at bank
    0 otherwise; a ROM of exactly 32 KiB is converted with start bank 2 and
    4 banks, a ROM of 32 KiB plus one byte with start bank 0 and 5 banks. *)
Theorem C3_simple64k_auto_start chip_kib input :
  valid_chip chip_kib -> loadable input ->
  (forall out start_bank in_banks,
     convert chip_kib Simple64K (-1) input = Done (out, start_bank, in_banks)
     -> start_bank = if normalized_size input / 1024 <=? 32 then 2 else 0) /\
  (SizeT.size input = 32768 ->
   exists out, convert chip_kib Simple64K (-1) input = Done (out, 2, 4)) /\
  (SizeT.size input = 32769 ->
   exists out, convert chip_kib Simple64K (-1) input = Done (out, 0, 5)).
Proof.
  intros Hchip Hload.
  pose proof (chip_capacity_min chip_kib Hchip) as Hcap.
  split; [| split].
  - intros out start_bank in_banks H.
    destruct (convert_done_inv _ _ _ _ _ _ _ Hchip valid_addr_none Hload H)
      as (-> & _).
    reflexivity.
  - intros Hsz. destruct (sized_banks input 32768 Hload Hsz) as [Hn Hb].
    change (padded_size 32768) with 32768 in Hn.
    change (padded_size 32768 / 8192) with 4 in Hb.
    destruct (convert_finishes chip_kib Simple64K (-1) input Hchip
                valid_addr_none Hload) as (out & E & _).
    + unfold window_exceeded. lia.
    + unfold chip_exceeded. lia.
    + unfold addr_exceeded. lia.
    + exists out. rewrite E, Hn, Hb. reflexivity.
  - intros Hsz. destruct (sized_banks input 32769 Hload Hsz) as [Hn Hb].
    change (padded_size 32769) with 40960 in Hn.
    change (padded_size 32769 / 8192) with 5 in Hb.
    destruct (convert_finishes chip_kib Simple64K (-1) input Hchip
                valid_addr_none Hload) as (out & E & _).
    + unfold window_exceeded. lia.
    + unfold chip_exceeded. lia.
    + unfold addr_exceeded. lia.
    + exists out. rewrite E, Hn, Hb. reflexivity.
Qed.

Lemma C3_simple64k_auto_start_witness :
  (exists out,
     convert 64 Simple64K (-1) (blank_rom 32768) = Done (out, 2, 4)) /\
  (exists out,
     convert 64 Simple64K (-1) (blank_rom 32769) = Done (out, 0, 5)).
Proof.
  split.
  - apply (C3_simple64k_auto_start 64 (blank_rom 32768) valid_chip_64).
    + apply blank_rom_loadable. lia.
    + apply blank_rom_size. lia.
  - apply (C3_simple64k_auto_start 64 (blank_rom 32769) valid_chip_64).
    + apply blank_rom_loadable. lia.
    + apply blank_rom_size. lia.
Defined.

(** C4, as stated, fails: with the hint 0 and a ROM of 9 banks,
    [h + bank_count > 8] holds and the conversion stops in the capacity
    check, which is not a RangeError. *)
Lemma C4_counterexample :
  0 + bank_count (blank_rom 73728) > 8 /\
  convert 128 Simple64K 0 (blank_rom 73728) = Exit RomTooLargeForSimple64K /\
  kind RomTooLargeForSimple64K <> RangeError.
Proof.
  split; [vm_compute; reflexivity |].
  split; [vm_compute; reflexivity | discriminate].
Qed.

(** C4, amended. Simple64K with a hint [h] in 0..7: the conversion fails
    with a RangeError exactly when the ROM has at most 8 banks and
    [h + bank_count > 8]; when [h + bank_count <= 8] it succeeds with start
    bank [h]; a ROM of more than 8 banks fails in the capacity check. With
    2 banks the hint 6 succeeds with start bank 6 and the hint 7 fails with
    a RangeError. *)
Theorem C4_simple64k_hint chip_kib h input :
  valid_chip chip_kib -> 0 <= h <= 7 -> loadable input ->
  ((exists f, convert chip_kib Simple64K h input = Exit f /\
              kind f = RangeError)
   <-> bank_count input <= 8 /\ h + bank_count input > 8) /\
  (h + bank_count input <= 8 ->
   exists out,
     convert chip_kib Simple64K h input = Done (out, h, bank_count input)) /\
  (bank_count input > 8 ->
   convert chip_kib Simple64K h input = Exit RomTooLargeForSimple64K) /\
  (bank_count input = 2 ->
   (h = 6 -> exists out, convert chip_kib Simple64K h input = Done (out, 6, 2))
   /\
   (h = 7 -> convert chip_kib Simple64K h input = Exit AddrExceedsWindow)).
Proof.
  intros Hchip Hh Hload.
  assert (valid_addr h) as Haddr by (unfold valid_addr; lia).
  pose proof (chip_capacity_min chip_kib Hchip) as Hcap.
  destruct (bank_count_facts input Hload) as (Hb0 & Hb & Hsz & Hmax).
  assert (resolved_start Simple64K h (normalized_size input) = h) as Hres.
  { unfold resolved_start. destruct (h >=? 0) eqn:E; [reflexivity | lia]. }
  destruct (convert_cases chip_kib Simple64K h input Hchip Haddr Hload)
    as [[Hw E] | [(Hw & Hc & E) | [(Hw & Hc & Ha & E)
                                  | (Hw & Hc & Ha & Hf)]]].
  - destruct Hw as [_ Hw].
    split; [split |
            split; [| split; [| intros H2; split; intros ->]]];
      try (intros; exfalso; lia).
    + intros (f & Hf & Hk). rewrite E in Hf. inversion Hf; subst.
      discriminate.
    + intros _. exact E.
  - exfalso. apply within_window in Hw. unfold chip_exceeded in Hc. lia.
  - apply within_window in Hw. destruct Ha as (_ & _ & Ha).
    split; [split |
            split; [| split; [| intros H2; split; intros ->]]];
      try (intros; exfalso; lia).
    + intros _. lia.
    + intros _. exists AddrExceedsWindow. now split.
    + exact E.
  - apply within_window in Hw. pose proof (within_addr _ _ Ha) as Ha'.
    destruct Hf as (out & E & _). rewrite Hres in E.
    split; [split |
            split; [| split; [| intros H2; split; intros ->]]];
      try (intros; exfalso; lia).
    + intros (f & Hf & Hk). rewrite E in Hf. discriminate.
    + intros _. exists out. exact E.
    + exists out. rewrite E, H2. reflexivity.
Qed.

Lemma C4_simple64k_hint_witness :
  (exists out,
     convert 64 Simple64K 6 (blank_rom 16384) = Done (out, 6, 2)) /\
  convert 64 Simple64K 7 (blank_rom 16384) = Exit AddrExceedsWindow.
Proof.
  split.
  - apply (C4_simple64k_hint 64 6 (blank_rom 16384) valid_chip_64);
      [lia | apply blank_rom_loadable; lia | vm_compute | ]; reflexivity.
  - apply (C4_simple64k_hint 64 7 (blank_rom 16384) valid_chip_64);
      [lia | apply blank_rom_loadable; lia | vm_compute | ]; reflexivity.
Defined.

(** C5. The conversion fails with a CapacityError exactly when the mapper
    is Simple64K and the padded ROM has more than 8 banks (whatever the
    chip), or the padded ROM is longer than the chip; a ROM of 160 KiB on a
    128 KiB chip fails so, and the run leaves the output file untouched. *)
Theorem C5_capacity_error chip_kib type s64k_addr input :
  valid_chip chip_kib -> valid_addr s64k_addr -> loadable input ->
  ((exists f, convert chip_kib type s64k_addr input = Exit f /\
              kind f = CapacityError)
   <-> (type = Simple64K /\ bank_count input > 8)
       \/ normalized_size input > chip_kib * 1024) /\
  (chip_kib = 128 -> SizeT.size input = 163840 ->
   exists f, kind f = CapacityError /\
     convert chip_kib type s64k_addr input = Exit f /\
     forall verify w,
       main verify chip_kib type s64k_addr input w = (Exit f, w)).
Proof.
  intros Hchip Haddr Hload.
  assert (forall f, convert chip_kib type s64k_addr input = Exit f ->
          forall verify w,
            main verify chip_kib type s64k_addr input w = (Exit f, w))
    as Hmain by (intros f E verify w; unfold main; now rewrite E).
  fold (chip_capacity chip_kib).
  fold (window_exceeded type input) (chip_exceeded chip_kib input).
  destruct (convert_cases chip_kib type s64k_addr input Hchip Haddr Hload)
    as [[Hw E] | [(Hw & Hc & E) | [(Hw & Hc & Ha & E)
                                  | (Hw & Hc & Ha & Hf)]]].
  - split.
    + split; [intros _; left; assumption |].
      intros _. exists RomTooLargeForSimple64K. now split.
    + intros _ _. exists RomTooLargeForSimple64K. auto.
  - split.
    + split; [intros _; right; assumption |].
      intros _. exists RomLargerThanChip. now split.
    + intros _ _. exists RomLargerThanChip. auto.
  - split.
    + split; [| tauto].
      intros (f & Hf & Hk). rewrite E in Hf. inversion Hf; subst.
      discriminate.
    + intros -> Hsz. exfalso. apply Hc.
      destruct (sized_banks input 163840 Hload Hsz) as [Hn _].
      unfold chip_exceeded, chip_capacity. rewrite Hn. reflexivity.
  - destruct Hf as (out & E & _). split.
    + split; [| tauto].
      intros (f & Hf & Hk). rewrite E in Hf. discriminate.
    + intros -> Hsz. exfalso. apply Hc.
      destruct (sized_banks input 163840 Hload Hsz) as [Hn _].
      unfold chip_exceeded, chip_capacity. rewrite Hn. reflexivity.
Qed.

Lemma valid_chip_128 : valid_chip 128.
Proof. right. left. reflexivity. Qed.

Lemma C5_capacity_error_witness :
  exists f, kind f = CapacityError /\
    convert 128 MegaSCC (-1) (blank_rom 163840) = Exit f /\
    forall verify w,
      main verify 128 MegaSCC (-1) (blank_rom 163840) w = (Exit f, w).
Proof.
  apply (C5_capacity_error 128 MegaSCC (-1) (blank_rom 163840)
           valid_chip_128 valid_addr_none).
  - apply blank_rom_loadable. lia.
  - reflexivity.
  - apply blank_rom_size. lia.
Defined.



Lemma check_capacity_done chip_kib type input :
  check_capacity type (bank_count input) (normalized_size input)
    (chip_capacity chip_kib) = Done tt ->
  ~ window_exceeded type input /\ ~ chip_exceeded chip_kib input.
Proof.
  unfold check_capacity, die_if, window_exceeded, chip_exceeded.
  intros H.
  destruct (normalized_size input >? chip_capacity chip_kib) eqn:Ec.
  - destruct type; simpl in H; try discriminate.
    destruct (bank_count input >? 8); discriminate.
  - split; [| lia]. intros [-> H8].
    destruct (bank_count input >? 8) eqn:E8; [discriminate | lia].
Qed.

Lemma compute_start_bank_done type s64k_addr input start_bank :
  valid_addr s64k_addr -> loadable input ->
  compute_start_bank type s64k_addr (normalized_size input)
    (bank_count input) = Done start_bank ->
  ~ addr_exceeded type s64k_addr input.
Proof.
  intros Haddr Hload H (-> & H0 & Hx).
  destruct (bank_count_facts input Hload) as (Hb0 & Hb & Hsz & Hmax).
  unfold valid_addr in Haddr. unfold compute_start_bank, die_if in H.
  destruct (s64k_addr >=? 0) eqn:E; [| lia].
  revert H. unwrap. destruct (_ >? 8) eqn:E'; [discriminate | lia].
Qed.

(** C7. Once the capacity checks and the start-bank resolver have let a
    conversion through, every range [(start_bank+i)*8192 .. +8192) the
    placer computes lies inside the output buffer and the placement loop
    finishes; no conversion ends in the overflow branch. *)
Theorem C7_overflow_unreachable chip_kib type s64k_addr input :
  valid_chip chip_kib -> valid_addr s64k_addr -> loadable input ->
  (forall start_bank,
     check_capacity type (bank_count input) (normalized_size input)
       (chip_capacity chip_kib) = Done tt ->
     compute_start_bank type s64k_addr (normalized_size input)
       (bank_count input) = Done start_bank ->
     (forall i, 0 <= i < bank_count input ->
        0 <= (start_bank + i) * 8192 /\
        (start_bank + i) * 8192 + 8192 <= SizeT.size (erased chip_kib)) /\
     exists out,
       place_banks start_bank (bank_count input) (pad_rom input)
         (erased chip_kib) = Done out) /\
  (forall f, convert chip_kib type s64k_addr input = Exit f ->
             kind f <> OverflowError).
Proof.
  intros Hchip Haddr Hload. split.
  - intros start_bank Hcheck Hstart.
    destruct (check_capacity_done _ _ _ Hcheck) as [Hw Hc].
    pose proof (compute_start_bank_done _ _ _ _ Haddr Hload Hstart) as Ha.
    rewrite (compute_start_bank_ok type s64k_addr input Haddr Hload Hw Ha)
      in Hstart.
    inversion Hstart as [Hs]. clear Hstart.
    destruct (resolved_start_fits chip_kib type s64k_addr input Hchip Haddr
                Hload Hw Hc Ha) as [Hs0 Hfit].
    rewrite Hs in Hs0, Hfit.
    destruct (bank_count_facts input Hload) as (Hb0 & Hb & Hsz & Hmax).
    pose proof (chip_capacity_min chip_kib Hchip) as Hcap.
    assert (SizeT.size (erased chip_kib) = chip_capacity chip_kib) as Hlen.
    { unfold SizeT.size, erased. rewrite length_replicate. lia. }
    split.
    + intros i Hi. rewrite Hlen. lia.
    + destruct (place_banks_from_spec start_bank (pad_rom input)
                  (Z.to_nat (bank_count input)) 0 (erased chip_kib))
        as (out & E & _); try (fold (normalized_size input); arith).
      exists out. rewrite Hs. exact E.
  - intros f E.
    destruct (convert_cases chip_kib type s64k_addr input Hchip Haddr Hload)
      as [[_ E'] | [(_ & _ & E') | [(_ & _ & _ & E')
                                    | (_ & _ & _ & out & E' & _)]]];
      rewrite E' in E; inversion E; subst; discriminate.
Qed.

Lemma C7_overflow_unreachable_witness :
  (forall i, 0 <= i < bank_count sample_rom ->
     0 <= (2 + i) * 8192 /\
     (2 + i) * 8192 + 8192 <= SizeT.size (erased 64)) /\
  exists out,
    place_banks 2 (bank_count sample_rom) (pad_rom sample_rom) (erased 64)
    = Done out.
Proof.
  apply (C7_overflow_unreachable 64 Simple64K (-1) sample_rom valid_chip_64
           valid_addr_none sample_loadable).
  - vm_compute. reflexivity.
  - vm_compute. reflexivity.
Defined.

(** C8. MegaSCC and RC755 convert every ROM on every chip to the same
    result, byte for byte, and leave the same output file; a conversion
    that succeeds has start bank 0 and the bank count of the padded ROM. *)
Theorem C8_megascc_rc755_agree chip_kib addr addr' input :
  convert chip_kib MegaSCC addr input = convert chip_kib RC755 addr' input /\
  (forall verify w,
     main verify chip_kib MegaSCC addr input w
     = main verify chip_kib RC755 addr' input w) /\
  (forall out start_bank in_banks,
     convert chip_kib MegaSCC addr input = Done (out, start_bank, in_banks) ->
     start_bank = 0 /\ in_banks = SizeT.size (pad_rom input) / 8192).
Proof.
  assert (convert chip_kib MegaSCC addr input
          = convert chip_kib RC755 addr' input) as Heq by reflexivity.
  split; [exact Heq |]. split.
  - intros verify w. unfold main. rewrite <- Heq. reflexivity.
  - intros out start_bank in_banks H. unfold convert in H.
    destruct (check_capacity _ _ _ _) as [[] | |]; simpl in H;
      try discriminate.
    destruct (place_banks _ _ _ _) as [out' | |]; simpl in H;
      try discriminate.
    inversion H; subst. split; reflexivity.
Qed.

Lemma sample_convert_linear :
  convert 64 MegaSCC (-1) sample_rom = Done (sample_image_linear, 0, 1).
Proof. by_running. Qed.

Lemma C8_megascc_rc755_agree_witness :
  0 = 0 /\ 1 = SizeT.size (pad_rom sample_rom) / 8192.
Proof.
  destruct (C8_megascc_rc755_agree 64 (-1) (-1) sample_rom) as (_ & _ & H).
  exact (H sample_image_linear 0 1 sample_convert_linear).
Defined.

Lemma stained_image_size o :
  0 <= o <= 65535 -> SizeT.size (stained_image o) = 65536.
Proof.
  intros H. unfold SizeT.size, stained_image.
  rewrite length_app, length_replicate, length_cons, length_replicate. lia.
Qed.

Lemma stained_image_stain o :
  0 <= o <= 65535 -> stained_image o !! Z.to_nat o = Some x00.
Proof.
  intros H. unfold stained_image.
  rewrite lookup_app_r by (rewrite length_replicate; lia).
  rewrite length_replicate, Nat.sub_diag. reflexivity.
Qed.

Lemma stained_image_before o o' :
  0 <= o' < o -> stained_image o !! Z.to_nat o' = Some fill_byte.
Proof.
  intros H. unfold stained_image.
  rewrite lookup_app_l by (rewrite length_replicate; lia).
  apply lookup_replicate_2. lia.
Qed.

Lemma stained_image_first_stray o :
  0 <= o <= 65535 -> first_stray_byte (stained_image o) 0 0 o.
Proof.
  intros H. split.
  - split; [rewrite stained_image_size; lia |]. split.
    + rewrite placed_iff. lia.
    + rewrite stained_image_stain by lia. discriminate.
  - intros o' Ho' (_ & _ & Hne). apply Hne. apply stained_image_before. lia.
Qed.

Lemma stained_image_verify o :
  0 <= o <= 65535 -> verify_pass (stained_image o) [] 0 0 = Exit VerifyNonFF.
Proof.
  intros H.
  destruct (verify_pass_cases (stained_image o) [] 0 0)
    as [(_ & Hnone & _) | [(b & (Hb & _) & _) | (_ & _ & E)]].
  - unfold readable. rewrite stained_image_size by lia.
    change (SizeT.size (@nil byte)) with 0. rewrite max_size_eq. lia.
  - exfalso. apply (Hnone o). apply stained_image_first_stray. lia.
  - lia.
  - exact E.
Qed.

(** C9, as stated, fails for a byte outside the written ranges: two images
    whose first offending offsets are 0 and 1 are reported with the same
    failure and the same text, which holds no offset. *)
Lemma C9_counterexample :
  first_stray_byte (stained_image 0) 0 0 0 /\
  first_stray_byte (stained_image 1) 0 0 1 /\
  verify_pass (stained_image 0) [] 0 0 = Exit VerifyNonFF /\
  verify_pass (stained_image 1) [] 0 0 = Exit VerifyNonFF /\
  message VerifyNonFF = "--verify: non-0xFF found outside written area".
Proof.
  split; [apply stained_image_first_stray; lia |].
  split; [apply stained_image_first_stray; lia |].
  split; [apply stained_image_verify; lia |].
  split; [apply stained_image_verify; lia | reflexivity].
Qed.

Lemma first_bad_bank_unique vb rom start_bank in_banks b b' :
  first_bad_bank vb rom start_bank in_banks b ->
  first_bad_bank vb rom start_bank in_banks b' -> b = b'.
Proof.
  intros (Hb & Hd & Hfirst) (Hb' & Hd' & Hfirst').
  destruct (Z.lt_trichotomy b b') as [Hlt | [Heq | Hgt]]; [| assumption |].
  - exfalso. apply (Hfirst' b); [lia | assumption].
  - exfalso. apply (Hfirst b'); [lia | assumption].
Qed.

(** The bank number can be read back from the text of the message. *)
Lemma bank_message_inj b b' :
  0 <= b -> 0 <= b' ->
  message (VerifyBankMismatch b) = message (VerifyBankMismatch b') -> b = b'.
Proof.
  intros Hb Hb' H. cbn in H. simplify_eq.
  unfold to_string in *.
  match goal with H : pretty _ = pretty _ |- _ => apply (inj pretty) in H end.
  lia.
Qed.

(** C9, amended. On an image that holds the written banks (it is at
    least [(start_bank + in_banks) * 8192] bytes long, and the ROM holds
    [in_banks] banks: [readable]), the verify pass stops with a
    VerifyMismatch whenever there is a violation. Banks
    are checked first: when a written bank differs from the ROM, the message
    names the lowest such bank. When the banks agree and a byte outside the
    written ranges is not 0xFF, the message is a fixed text that names no
    offset. Without a violation the pass ends normally. *)
Theorem C9_verify_reports vb rom start_bank in_banks :
  readable vb rom start_bank in_banks ->
  (forall bank,
     first_bad_bank vb rom start_bank in_banks bank ->
     verify_pass vb rom start_bank in_banks = Exit (VerifyBankMismatch bank)
     /\ kind (VerifyBankMismatch bank) = VerifyMismatch
     /\ message (VerifyBankMismatch bank)
        = "--verify: mismatch in bank " +:+ to_string bank) /\
  ((forall b, 0 <= b < in_banks -> ~ bank_differs vb rom start_bank b) ->
   (exists o, stray_byte vb start_bank in_banks o) ->
   verify_pass vb rom start_bank in_banks = Exit VerifyNonFF
   /\ kind VerifyNonFF = VerifyMismatch
   /\ message VerifyNonFF = "--verify: non-0xFF found outside written area")
  /\
  (verify_pass vb rom start_bank in_banks = Done tt <->
   (forall b, 0 <= b < in_banks -> ~ bank_differs vb rom start_bank b) /\
   (forall o, ~ stray_byte vb start_bank in_banks o)).
Proof.
  intros Hr.
  destruct (verify_pass_cases vb rom start_bank in_banks Hr)
    as [(Hsame & Hnone & E) | [(b & Hbad & E) | (Hsame & (o & Hst) & E)]].
  - split; [| split].
    + intros bank (Hb & Hd & _). exfalso. apply (Hsame bank); assumption.
    + intros _ (o & Hst). exfalso. apply (Hnone o). assumption.
    + split; [intros _; split; assumption | intros _; exact E].
  - split; [| split].
    + intros bank Hbad'.
      rewrite (first_bad_bank_unique _ _ _ _ _ _ Hbad' Hbad).
      split; [exact E |]. split; reflexivity.
    + intros Hsame _. exfalso. destruct Hbad as (Hb & Hd & _).
      apply (Hsame b); assumption.
    + split; [intros E'; rewrite E in E'; discriminate |].
      intros [Hsame _]. exfalso. destruct Hbad as (Hb & Hd & _).
      apply (Hsame b); assumption.
  - split; [| split].
    + intros bank (Hb & Hd & _). exfalso. apply (Hsame bank); assumption.
    + intros _ _. split; [exact E |]. split; reflexivity.
    + split; [intros E'; rewrite E in E'; discriminate |].
      intros [_ Hnone]. exfalso. destruct Hst as [Hst _].
      apply (Hnone o). assumption.
Qed.

Lemma sample_corrupt_readable :
  readable (<[Z.to_nat 16385 := x00]> sample_image) (pad_rom sample_rom) 2 1.
Proof.
  pose proof (convert_done_readable _ _ _ _ _ _ _ valid_chip_64
                valid_addr_none sample_loadable sample_convert) as Hr.
  unfold readable, SizeT.size in *. rewrite length_insert. exact Hr.
Qed.

Lemma sample_corrupt_first_bad_bank :
  first_bad_bank (<[Z.to_nat 16385 := x00]> sample_image)
    (pad_rom sample_rom) 2 1 0.
Proof.
  destruct (convert_done_readable _ _ _ _ _ _ _ valid_chip_64
              valid_addr_none sample_loadable sample_convert)
    as (_ & _ & [Hlen _] & _).
  split; [lia |]. split; [| intros b Hb; lia].
  exists 1. split; [lia |].
  change (Z.to_nat ((2 + 0) * 8192 + 1)) with (Z.to_nat 16385).
  change (Z.to_nat (0 * 8192 + 1)) with 1%nat.
  rewrite list_lookup_insert_eq by (unfold SizeT.size in Hlen; lia).
  rewrite (pad_rom_lookup_input sample_rom 1 sample_loadable)
    by (simpl; lia).
  discriminate.
Qed.

Lemma C9_verify_reports_witness :
  (verify_pass (<[Z.to_nat 16385 := x00]> sample_image) (pad_rom sample_rom)
     2 1 = Exit (VerifyBankMismatch 0)
   /\ kind (VerifyBankMismatch 0) = VerifyMismatch
   /\ message (VerifyBankMismatch 0)
      = "--verify: mismatch in bank " +:+ to_string 0) /\
  (verify_pass (stained_image 5) [] 0 0 = Exit VerifyNonFF
   /\ kind VerifyNonFF = VerifyMismatch
   /\ message VerifyNonFF
      = "--verify: non-0xFF found outside written area").
Proof.
  split.
  - apply (C9_verify_reports (<[Z.to_nat 16385 := x00]> sample_image)
             (pad_rom sample_rom) 2 1 sample_corrupt_readable).
    exact sample_corrupt_first_bad_bank.
  - apply (C9_verify_reports (stained_image 5) [] 0 0).
    + unfold readable. rewrite stained_image_size by lia.
      change (SizeT.size (@nil byte)) with 0. rewrite max_size_eq. lia.
    + intros b Hb. lia.
    + exists 5. apply stained_image_first_stray. lia.
Defined.

(** C10. An empty ROM is accepted by every mapper on every chip: it stays
    empty with 0 banks, the resolver gives start bank 0 for MegaSCC and
    RC755, 2 for Simple64K without a hint and the hint itself otherwise,
    nothing is copied, and the run writes an image of the chip's size made
    of 0xFF only. *)
Theorem C10_empty_rom chip_kib type s64k_addr :
  valid_chip chip_kib -> valid_addr s64k_addr ->
  pad_rom [] = [] /\ bank_count [] = 0 /\
  convert chip_kib type s64k_addr [] =
    Done (replicate (Z.to_nat (chip_kib * 1024)) xff,
          match type with
          | Simple64K => if s64k_addr >=? 0 then s64k_addr else 2
          | _ => 0
          end, 0) /\
  forall w,
    main false chip_kib type s64k_addr [] w =
      (Done tt, {| sink := Some (replicate (Z.to_nat (chip_kib * 1024)) xff) |}).
Proof.
  intros Hchip Haddr.
  assert (convert chip_kib type s64k_addr [] =
          Done (replicate (Z.to_nat (chip_kib * 1024)) xff,
                match type with
                | Simple64K => if s64k_addr >=? 0 then s64k_addr else 2
                | _ => 0
                end, 0)) as E.
  { rewrite convert_body by assumption.
    change (bank_count []) with 0. change (normalized_size []) with 0.
    change (pad_rom []) with (@nil byte).
    pose proof (chip_capacity_min chip_kib Hchip) as Hcap.
    assert (check_capacity type 0 0 (chip_capacity chip_kib) = Done tt) as ->.
    { unfold check_capacity, die_if.
      destruct (0 >? chip_capacity chip_kib) eqn:Ec; [lia |].
      destruct type; reflexivity. }
    simpl. unfold valid_addr in Haddr.
    destruct type; try reflexivity.
    unfold compute_start_bank, die_if.
    destruct (s64k_addr >=? 0) eqn:E0.
    - unwrap. destruct (_ >? 8) eqn:E8; [lia | reflexivity].
    - reflexivity. }
  split; [reflexivity |]. split; [reflexivity |]. split; [exact E |].
  intros w. unfold main. rewrite E. reflexivity.
Qed.

Lemma C10_empty_rom_witness :
  convert 64 Simple64K (-1) [] =
    Done (replicate (Z.to_nat (64 * 1024)) xff, 2, 0).
Proof.
  apply (C10_empty_rom 64 Simple64K (-1) valid_chip_64 valid_addr_none).
Defined.

(** * Further properties of the code *)

(** ** Padding (lines 117-122) *)

Lemma pad_rom_aligned input :
  SizeT.size input mod BANK_SIZE = 0 -> pad_rom input = input.
Proof.
  intros H. unfold pad_rom. rewrite H. reflexivity.
Qed.

Lemma pad_rom_size_aligned input :
  loadable input -> SizeT.size (pad_rom input) mod BANK_SIZE = 0.
Proof.
  intros Hl. rewrite pad_rom_size by assumption.
  pose proof (padded_size_bounds (SizeT.size input) (size_nonneg _)) as Hp.
  rewrite BANK_SIZE_eq. tauto.
Qed.

(** X1. Padding twice is padding once. *)
Theorem pad_rom_idempotent input :
  loadable input -> pad_rom (pad_rom input) = pad_rom input.
Proof.
  intros Hl. apply pad_rom_aligned. now apply pad_rom_size_aligned.
Qed.

Lemma pad_rom_idempotent_witness :
  pad_rom (pad_rom sample_rom) = pad_rom sample_rom.
Proof. apply (pad_rom_idempotent sample_rom sample_loadable). Defined.

(** X2. The padded ROM is the input followed by fewer than 8192 bytes of
    0xFF: as few as bring the length to a multiple of 8192, none when it
    already is one. *)
Theorem pad_rom_shape input :
  loadable input ->
  exists k,
    pad_rom input = input ++ replicate k fill_byte /\
    (Z.of_nat k < 8192) /\
    (SizeT.size input + Z.of_nat k) mod 8192 = 0 /\
    (SizeT.size input mod 8192 = 0 -> k = 0%nat).
Proof.
  intros Hl.
  pose proof (padded_size_bounds (SizeT.size input) (size_nonneg _)) as Hp.
  exists (Z.to_nat (padded_size (SizeT.size input)) - length input)%nat.
  split; [now apply pad_rom_app |].
  unfold SizeT.size, padded_size in *.
  split; [| split]; try intros ?; Z.to_euclidean_division_equations; lia.
Qed.

Lemma pad_rom_shape_witness :
  exists k,
    pad_rom sample_rom = sample_rom ++ replicate k fill_byte /\
    (Z.of_nat k < 8192) /\
    (SizeT.size sample_rom + Z.of_nat k) mod 8192 = 0 /\
    (SizeT.size sample_rom mod 8192 = 0 -> k = 0%nat).
Proof. apply (pad_rom_shape sample_rom sample_loadable). Defined.

(** X3. A ROM that was padded beforehand converts exactly as the
    original, whatever the chip, the mapper and the hint. *)
Theorem convert_of_padded chip_kib type s64k_addr input :
  loadable input ->
  convert chip_kib type s64k_addr (pad_rom input)
  = convert chip_kib type s64k_addr input.
Proof.
  intros Hl. unfold convert.
  rewrite (pad_rom_aligned (pad_rom input))
    by now apply pad_rom_size_aligned.
  reflexivity.
Qed.

Lemma convert_of_padded_witness :
  convert 64 Simple64K (-1) (pad_rom sample_rom)
  = convert 64 Simple64K (-1) sample_rom.
Proof.
  apply (convert_of_padded 64 Simple64K (-1) sample_rom sample_loadable).
Defined.

(** ** The image as a whole (lines 135-180) *)

Lemma convert_done_laid_out chip_kib type s64k_addr input out start_bank
    in_banks :
  valid_chip chip_kib -> valid_addr s64k_addr -> loadable input ->
  convert chip_kib type s64k_addr input = Done (out, start_bank, in_banks) ->
  out = laid_out chip_kib start_bank (pad_rom input).
Proof.
  intros Hchip Haddr Hload H.
  destruct (convert_done_inv _ _ _ _ _ _ _ Hchip Haddr Hload H)
    as (_ & Hn & _ & _ & _ & Hlen & Hs0 & Hfit & Hin & Hout).
  destruct (bank_count_facts input Hload) as (Hb0 & Hb & Hsz & Hmax).
  fold (normalized_size input) in *. subst in_banks.
  unfold laid_out. fold (normalized_size input).
  apply list_eq. intros i.
  destruct (Z_lt_dec (Z.of_nat i) (start_bank * 8192)) as [H1 | H1].
  { rewrite Hout by lia.
    rewrite lookup_app_l by (rewrite length_replicate; lia).
    symmetry. apply lookup_replicate_2. lia. }
  rewrite lookup_app_r by (rewrite length_replicate; lia).
  rewrite length_replicate.
  destruct (Z_lt_dec (Z.of_nat i) ((start_bank + bank_count input) * 8192))
    as [H2 | H2].
  { rewrite Hin by lia.
    rewrite lookup_app_l
      by (unfold normalized_size, SizeT.size in *; lia).
    f_equal. lia. }
  rewrite lookup_app_r by (unfold normalized_size, SizeT.size in *; lia).
  destruct (Z_lt_dec (Z.of_nat i) (chip_capacity chip_kib)) as [H3 | H3].
  - rewrite Hout by lia. symmetry. apply lookup_replicate_2.
    unfold normalized_size, SizeT.size in *. lia.
  - rewrite lookup_ge_None_2 by (unfold SizeT.size in *; lia).
    symmetry. apply lookup_ge_None_2. rewrite length_replicate.
    unfold normalized_size, SizeT.size in *. lia.
Qed.

(** X4. The image of a finished conversion, written in full: 0xFF up to
    offset [start_bank * 8192], the padded ROM, 0xFF to the end of the
    chip. So the padded ROM is read back from the image at the start bank,
    and the input itself sits at the start of it. *)
Theorem image_in_full chip_kib type s64k_addr input out start_bank in_banks :
  valid_chip chip_kib -> valid_addr s64k_addr -> loadable input ->
  convert chip_kib type s64k_addr input = Done (out, start_bank, in_banks) ->
  out = laid_out chip_kib start_bank (pad_rom input) /\
  take (Z.to_nat (in_banks * 8192)) (drop (Z.to_nat (start_bank * 8192)) out)
  = pad_rom input /\
  take (length input) (drop (Z.to_nat (start_bank * 8192)) out) = input.
Proof.
  intros Hchip Haddr Hload H.
  pose proof (convert_done_laid_out _ _ _ _ _ _ _ Hchip Haddr Hload H) as E.
  destruct (convert_done_inv _ _ _ _ _ _ _ Hchip Haddr Hload H)
    as (_ & Hn & _ & _ & _ & _ & Hs0 & _).
  destruct (bank_count_facts input Hload) as (Hb0 & Hb & Hsz & Hmax).
  split; [exact E |].
  assert (drop (Z.to_nat (start_bank * 8192)) out
          = pad_rom input
            ++ replicate
                 (Z.to_nat (chip_capacity chip_kib - start_bank * 8192
                            - SizeT.size (pad_rom input))) fill_byte) as ->.
  { rewrite E. unfold laid_out.
    rewrite drop_app_length'; [reflexivity |].
    rewrite length_replicate. reflexivity. }
  split.
  - rewrite take_app_length'; [reflexivity |].
    subst in_banks. unfold normalized_size, SizeT.size in *. lia.
  - rewrite (pad_rom_app input Hload). rewrite <- app_assoc.
    now rewrite take_app_length.
Qed.

Lemma image_in_full_witness :
  sample_image = laid_out 64 2 (pad_rom sample_rom) /\
  take (Z.to_nat (1 * 8192)) (drop (Z.to_nat (2 * 8192)) sample_image)
  = pad_rom sample_rom /\
  take (length sample_rom) (drop (Z.to_nat (2 * 8192)) sample_image)
  = sample_rom.
Proof.
  apply (image_in_full 64 Simple64K (-1) sample_rom sample_image 2 1
           valid_chip_64 valid_addr_none sample_loadable sample_convert).
Defined.

Lemma laid_out_grow chip_kib chip_kib' start_bank rom :
  0 <= start_bank ->
  start_bank * 8192 + SizeT.size rom <= chip_capacity chip_kib ->
  chip_capacity chip_kib <= chip_capacity chip_kib' ->
  laid_out chip_kib' start_bank rom
  = laid_out chip_kib start_bank rom
    ++ replicate
         (Z.to_nat (chip_capacity chip_kib' - chip_capacity chip_kib))
         fill_byte.
Proof.
  intros Hs Hfit Hle. unfold laid_out.
  rewrite <- !app_assoc. do 2 f_equal.
  rewrite <- replicate_add. f_equal.
  pose proof (size_nonneg rom). lia.
Qed.

(** X5. A larger chip only adds 0xFF at the end: when a ROM converts for
    one chip it converts for every larger one, with the same start bank
    and bank count, and the larger image is the smaller one followed by
    0xFF. *)
Theorem larger_chip_appends_fill chip_kib chip_kib' type s64k_addr input out
    start_bank in_banks :
  valid_chip chip_kib -> valid_chip chip_kib' -> chip_kib <= chip_kib' ->
  valid_addr s64k_addr -> loadable input ->
  convert chip_kib type s64k_addr input = Done (out, start_bank, in_banks) ->
  convert chip_kib' type s64k_addr input =
    Done (out ++ replicate (Z.to_nat ((chip_kib' - chip_kib) * 1024)) fill_byte,
          start_bank, in_banks).
Proof.
  intros Hchip Hchip' Hle Haddr Hload H.
  pose proof (convert_done_laid_out _ _ _ _ _ _ _ Hchip Haddr Hload H) as E.
  destruct (convert_done_inv _ _ _ _ _ _ _ Hchip Haddr Hload H)
    as (Hs & Hn & Hw & Hc & Ha & _ & Hs0 & Hfit & _).
  destruct (bank_count_facts input Hload) as (Hb0 & Hb & Hsz & Hmax).
  assert (chip_capacity chip_kib <= chip_capacity chip_kib') as Hcap
    by (unfold chip_capacity; lia).
  assert (~ chip_exceeded chip_kib' input) as Hc'
    by (unfold chip_exceeded in *; lia).
  destruct (convert_finishes chip_kib' type s64k_addr input Hchip' Haddr Hload
              Hw Hc' Ha) as (out' & E' & _).
  rewrite <- Hs, <- Hn in E'.
  pose proof (convert_done_laid_out _ _ _ _ _ _ _ Hchip' Haddr Hload E')
    as Eout'.
  rewrite E'. do 3 f_equal. rewrite Eout', E.
  rewrite (laid_out_grow chip_kib chip_kib') by
    (try assumption; fold (normalized_size input); lia).
  do 2 f_equal. unfold chip_capacity. lia.
Qed.

Lemma larger_chip_appends_fill_witness :
  convert 128 Simple64K (-1) sample_rom =
    Done (sample_image
          ++ replicate (Z.to_nat ((128 - 64) * 1024)) fill_byte, 2, 1).
Proof.
  apply (larger_chip_appends_fill 64 128 Simple64K (-1) sample_rom
           sample_image 2 1 valid_chip_64 valid_chip_128);
    [lia | exact valid_addr_none | exact sample_loadable
     | exact sample_convert].
Defined.

(** X6. Simple64K uses the first 64 KiB only: in the image of a finished
    Simple64K conversion the written banks end at bank 8 at the latest and
    every byte from offset 65536 on is 0xFF, on every chip. *)
Theorem simple64k_window chip_kib s64k_addr input out start_bank in_banks :
  valid_chip chip_kib -> valid_addr s64k_addr -> loadable input ->
  convert chip_kib Simple64K s64k_addr input
    = Done (out, start_bank, in_banks) ->
  start_bank + in_banks <= 8 /\
  forall o, 65536 <= o < chip_kib * 1024 ->
    out !! Z.to_nat o = Some fill_byte.
Proof.
  intros Hchip Haddr Hload H.
  destruct (convert_done_inv _ _ _ _ _ _ _ Hchip Haddr Hload H)
    as (Hs & Hn & Hw & Hc & Ha & _ & Hs0 & _ & _ & Hout).
  destruct (bank_count_facts input Hload) as (Hb0 & Hb & Hsz & Hmax).
  pose proof (within_window _ Hw) as Hw'.
  assert (~ chip_exceeded 64 input) as Hc64
    by (unfold chip_exceeded, chip_capacity; lia).
  destruct (resolved_start_fits 64 Simple64K s64k_addr input valid_chip_64
              Haddr Hload Hw Hc64 Ha) as [_ Hfit].
  rewrite <- Hs, <- Hn in Hfit. unfold chip_capacity in Hfit.
  split; [lia |].
  intros o Ho. apply Hout; unfold chip_capacity; lia.
Qed.

Lemma simple64k_window_witness :
  2 + 1 <= 8 /\
  forall o, 65536 <= o < 128 * 1024 ->
    (sample_image ++ replicate (Z.to_nat 65536) fill_byte) !! Z.to_nat o
    = Some fill_byte.
Proof.
  apply (simple64k_window 128 (-1) sample_rom _ 2 1 valid_chip_128
           valid_addr_none sample_loadable).
  by_running.
Defined.

(** X7. Simple64K placed at bank 0 is the linear layout: for a ROM of at
    most 8 banks, Simple64K with [--addr 0], or without [--addr] when the
    ROM is larger than 32 KiB, converts exactly as MegaSCC does. *)
Theorem simple64k_at_zero_is_linear chip_kib s64k_addr addr' input :
  loadable input -> bank_count input <= 8 ->
  s64k_addr = 0 \/ (s64k_addr = -1 /\ normalized_size input > 32768) ->
  convert chip_kib Simple64K s64k_addr input
  = convert chip_kib MegaSCC addr' input.
Proof.
  intros Hload H8 Hz.
  destruct (bank_count_facts input Hload) as (Hb0 & Hb & Hsz & Hmax).
  unfold convert. cbv zeta.
  fold (normalized_size input). fold (bank_count input).
  assert (check_capacity Simple64K (bank_count input) (normalized_size input)
            (SizeT.mul (SizeT.cast chip_kib) 1024)
          = check_capacity MegaSCC (bank_count input) (normalized_size input)
              (SizeT.mul (SizeT.cast chip_kib) 1024)) as ->.
  { unfold check_capacity.
    assert ((bank_count input >? 8) = false) as -> by lia. reflexivity. }
  assert (compute_start_bank Simple64K s64k_addr (normalized_size input)
            (bank_count input) = Done 0) as ->; [| reflexivity].
  unfold compute_start_bank, die_if.
  destruct Hz as [-> | [-> Hbig]].
  - change (0 >=? 0) with true. cbv iota. unwrap.
    destruct (_ >? 8) eqn:E; [lia | reflexivity].
  - change (-1 >=? 0) with false. cbv iota.
    assert ((normalized_size input / 1024 <=? 32) = false) as ->
      by (apply Z.leb_gt; Z.to_euclidean_division_equations; lia).
    unwrap.
    destruct (_ >? 8) eqn:E; [lia | reflexivity].
Qed.

Lemma simple64k_at_zero_is_linear_witness :
  convert 64 Simple64K 0 sample_rom = convert 64 MegaSCC (-1) sample_rom.
Proof.
  apply (simple64k_at_zero_is_linear 64 0 (-1) sample_rom sample_loadable).
  - vm_compute. discriminate.
  - left. reflexivity.
Defined.

(** X8. The check after the automatic choice of the start bank (lines
    162-165) never fires: Simple64K without [--addr] either converts or
    fails in a capacity check. *)
Theorem auto_start_always_fits chip_kib input :
  valid_chip chip_kib -> loadable input ->
  (exists out start_bank,
     convert chip_kib Simple64K (-1) input
     = Done (out, start_bank, bank_count input)) \/
  (exists f, convert chip_kib Simple64K (-1) input = Exit f /\
             kind f = CapacityError).
Proof.
  intros Hchip Hload.
  destruct (convert_cases chip_kib Simple64K (-1) input Hchip valid_addr_none
              Hload)
    as [[_ E'] | [(_ & _ & E') | [(_ & _ & (_ & Hneg & _) & _)
                                  | (_ & _ & _ & out & E' & _)]]].
  - right. exists RomTooLargeForSimple64K. now split.
  - right. exists RomLargerThanChip. now split.
  - lia.
  - left. eauto.
Qed.

Lemma auto_start_always_fits_witness :
  (exists out start_bank,
     convert 64 Simple64K (-1) (blank_rom 65536)
     = Done (out, start_bank, bank_count (blank_rom 65536))) \/
  (exists f, convert 64 Simple64K (-1) (blank_rom 65536) = Exit f /\
             kind f = CapacityError).
Proof.
  apply (auto_start_always_fits 64 (blank_rom 65536) valid_chip_64).
  apply blank_rom_loadable. lia.
Defined.

(** X9. The conversion stays inside its vectors: with the options the
    parser lets through, no [memcpy] of the placement loop reads or writes
    past the end of the ROM or of the image; the conversion ends normally
    or in a [die]. *)
Theorem convert_never_out_of_bounds chip_kib type s64k_addr input :
  valid_chip chip_kib -> valid_addr s64k_addr -> loadable input ->
  (exists r, convert chip_kib type s64k_addr input = Done r) \/
  (exists f, convert chip_kib type s64k_addr input = Exit f).
Proof.
  intros Hchip Haddr Hload.
  destruct (convert_cases chip_kib type s64k_addr input Hchip Haddr Hload)
    as [[_ E'] | [(_ & _ & E') | [(_ & _ & _ & E')
                                  | (_ & _ & _ & out & E' & _)]]];
    rewrite E'; eauto.
Qed.

Lemma valid_chip_512 : valid_chip 512.
Proof. right. right. right. reflexivity. Qed.

Lemma convert_never_out_of_bounds_witness :
  (exists r, convert 512 RC755 (-1) (blank_rom 100000) = Done r) \/
  (exists f, convert 512 RC755 (-1) (blank_rom 100000) = Exit f).
Proof.
  apply (convert_never_out_of_bounds 512 RC755 (-1) (blank_rom 100000)
           valid_chip_512 valid_addr_none).
  apply blank_rom_loadable. lia.
Defined.

(** ** The guard of the placement loop (lines 172-180) *)

Lemma place_banks_from_too_small start_bank rom todo : forall bank out,
  0 <= start_bank -> 0 <= bank -> (0 < todo)%nat ->
  SizeT.size out < (start_bank + bank + Z.of_nat todo) * 8192 ->
  (start_bank + bank + Z.of_nat todo) * 8192 <= SizeT.max_size ->
  SizeT.size out <= SizeT.max_size ->
  (bank + Z.of_nat todo) * 8192 <= SizeT.size rom ->
  SizeT.size rom <= SizeT.max_size ->
  place_banks_from todo bank start_bank rom out = Exit OutputOverflow.
Proof.
  induction todo as [| todo IH];
    intros bank out Hs Hb Hpos Hsmall Hwrap Hmax Hrom Hrmax; [lia |].
  rewrite place_banks_from_S. unwrap. unfold die_if.
  destruct (_ >? _) eqn:E; [reflexivity |]. simpl.
  destruct (memcpy_spec out ((start_bank + bank) * BANK_SIZE) rom
              (bank * BANK_SIZE) BANK_SIZE)
    as (out1 & E1 & L1 & _); try arith.
  rewrite E1. simpl.
  apply IH; try (unfold SizeT.size in *; rewrite ?L1; arith).
Qed.

(** X10. The guard of the placement loop is exact. On any buffer, with a
    ROM that holds the banks, the loop dies with the overflow message
    exactly when there is a bank to place and the last one would end past
    the buffer; otherwise it finishes and the buffer keeps its length. *)
Theorem placement_guard_exact start_bank in_banks rom out :
  0 <= start_bank -> 0 <= in_banks ->
  in_banks * 8192 <= SizeT.size rom -> SizeT.size rom <= SizeT.max_size ->
  SizeT.size out <= SizeT.max_size ->
  (start_bank + in_banks) * 8192 <= SizeT.max_size ->
  (place_banks start_bank in_banks rom out = Exit OutputOverflow <->
   0 < in_banks /\ SizeT.size out < (start_bank + in_banks) * 8192) /\
  (in_banks = 0 \/ (start_bank + in_banks) * 8192 <= SizeT.size out ->
   exists out', place_banks start_bank in_banks rom out = Done out' /\
                length out' = length out).
Proof.
  intros Hs Hn Hrom Hrmax Hmax Hwrap. unfold place_banks.
  assert (in_banks = 0 \/ (start_bank + in_banks) * 8192 <= SizeT.size out ->
          exists out',
            place_banks_from (Z.to_nat in_banks) 0 start_bank rom out
            = Done out' /\ length out' = length out) as Hfits.
  { intros [-> | Hfit].
    - exists out. split; reflexivity.
    - destruct (place_banks_from_spec start_bank rom (Z.to_nat in_banks) 0
                  out) as (out' & E & L & _); try arith.
      exists out'. split; assumption. }
  split; [| exact Hfits]. split.
  - intros E.
    destruct (Z.eq_dec in_banks 0) as [H0 | H0];
      [destruct (Hfits (or_introl H0)) as (out' & E' & _); congruence |].
    destruct (Z_le_dec ((start_bank + in_banks) * 8192) (SizeT.size out))
      as [Hfit | Hfit];
      [destruct (Hfits (or_intror Hfit)) as (out' & E' & _); congruence |].
    lia.
  - intros [Hpos Hsmall].
    apply place_banks_from_too_small; lia.
Qed.

Lemma placement_guard_exact_witness :
  place_banks 2 4 (blank_rom 32768) (replicate (Z.to_nat 32768) fill_byte)
  = Exit OutputOverflow.
Proof.
  apply (placement_guard_exact 2 4 (blank_rom 32768)
           (replicate (Z.to_nat 32768) fill_byte));
    rewrite ?blank_rom_size by lia;
    unfold SizeT.size; rewrite ?length_replicate, ?max_size_eq; lia.
Defined.

(** ** What the verify pass catches (lines 193-219) *)

(** X11. The verify pass catches every corrupted byte. When one byte of
    the image of a finished conversion is replaced by another value, the
    pass dies: naming the bank of the byte when the byte lies in a written
    bank, with the 0xFF message otherwise. *)
Theorem verify_catches_corruption chip_kib type s64k_addr input out
    start_bank in_banks o b' :
  valid_chip chip_kib -> valid_addr s64k_addr -> loadable input ->
  convert chip_kib type s64k_addr input = Done (out, start_bank, in_banks) ->
  0 <= o < chip_kib * 1024 -> out !! Z.to_nat o <> Some b' ->
  verify_pass (<[Z.to_nat o := b']> out) (pad_rom input) start_bank in_banks
  = Exit (if (start_bank * 8192 <=? o) && (o <? (start_bank + in_banks) * 8192)
          then VerifyBankMismatch (o / 8192 - start_bank)
          else VerifyNonFF).
Proof.
  intros Hchip Haddr Hload H Ho Hb'.
  pose proof (convert_done_readable _ _ _ _ _ _ _ Hchip Haddr Hload H) as Hr.
  destruct (convert_done_inv _ _ _ _ _ _ _ Hchip Haddr Hload H)
    as (_ & _ & _ & _ & _ & Hlen & Hs0 & Hfit & Hin & Hout).
  unfold chip_capacity in *.
  set (vb := <[Z.to_nat o := b']> out).
  assert (SizeT.size vb = SizeT.size out) as Hsize
    by (unfold SizeT.size, vb; now rewrite length_insert).
  assert (vb !! Z.to_nat o = Some b') as Hat
    by (apply list_lookup_insert_eq; unfold SizeT.size in *; lia).
  assert (forall i : nat, i <> Z.to_nat o -> vb !! i = out !! i) as Hoff
    by (intros i Hi; apply list_lookup_insert_ne; congruence).
  assert (readable vb (pad_rom input) start_bank in_banks) as Hr'
    by (unfold readable in *; rewrite Hsize; exact Hr).
  destruct Hr as (_ & Hn0 & _ & _).
  (* a written bank that does not hold [o] is as it was *)
  assert (forall b, 0 <= b < in_banks -> b <> o / 8192 - start_bank ->
          ~ bank_differs vb (pad_rom input) start_bank b) as Hother.
  { intros b Hb Hne (j & Hj & Hd). apply Hd.
    rewrite Hoff by (Z.to_euclidean_division_equations; lia).
    rewrite Hin by lia. f_equal. lia. }
  destruct ((start_bank * 8192 <=? o) && (o <? (start_bank + in_banks) * 8192))
    eqn:Ep.
  - apply andb_true_iff in Ep. destruct Ep as [Ep1 Ep2].
    apply Z.leb_le in Ep1. apply Z.ltb_lt in Ep2.
    assert (0 <= o / 8192 - start_bank < in_banks) as Hbk
      by (Z.to_euclidean_division_equations; lia).
    assert (bank_differs vb (pad_rom input) start_bank
              (o / 8192 - start_bank)) as Hbad.
    { exists (o mod 8192).
      split; [Z.to_euclidean_division_equations; lia |].
      replace ((start_bank + (o / 8192 - start_bank)) * 8192 + o mod 8192)
        with o by (Z.to_euclidean_division_equations; lia).
      rewrite Hat. intros Heq. apply Hb'.
      rewrite Hin by lia. rewrite Heq. f_equal.
      Z.to_euclidean_division_equations; lia. }
    destruct (verify_pass_cases vb (pad_rom input) start_bank in_banks Hr')
      as [(Hsame & _) | [(b & (Hb & Hd & _) & E) | (Hsame & _)]].
    + exfalso. apply (Hsame _ Hbk Hbad).
    + destruct (Z.eq_dec b (o / 8192 - start_bank)) as [-> | Hne];
        [exact E |].
      exfalso. apply (Hother b Hb Hne Hd).
    + exfalso. apply (Hsame _ Hbk Hbad).
  - assert (~ start_bank * 8192 <= o < (start_bank + in_banks) * 8192)
      as Hnp.
    { intros [Hp1 Hp2]. apply Z.leb_le in Hp1. apply Z.ltb_lt in Hp2.
      rewrite Hp1, Hp2 in Ep. discriminate. }
    assert (forall b, 0 <= b < in_banks ->
            ~ bank_differs vb (pad_rom input) start_bank b) as Hsame.
    { intros b Hb. apply Hother; [assumption |].
      Z.to_euclidean_division_equations; lia. }
    assert (stray_byte vb start_bank in_banks o) as Hst.
    { split; [rewrite Hsize; lia |]. split; [now rewrite placed_iff |].
      rewrite Hat. intros Heq. apply Hb'. rewrite Heq.
      apply Hout; lia. }
    destruct (verify_pass_cases vb (pad_rom input) start_bank in_banks Hr')
      as [(_ & Hnone & _) | [(b & (Hb & Hd & _) & _) | (_ & _ & E)]].
    + exfalso. apply (Hnone o Hst).
    + exfalso. apply (Hsame b Hb Hd).
    + exact E.
Qed.

Lemma sample_image_lookup :
  sample_image !! Z.to_nat 16385 <> Some x00.
Proof.
  unfold sample_image.
  rewrite lookup_app_r by (rewrite length_replicate; lia).
  rewrite length_replicate.
  replace (Z.to_nat 16385 - Z.to_nat 16384)%nat with 1%nat by lia.
  discriminate.
Qed.

Lemma verify_catches_corruption_witness :
  verify_pass (<[Z.to_nat 16385 := x00]> sample_image) (pad_rom sample_rom)
    2 1
  = Exit (VerifyBankMismatch 0).
Proof.
  apply (verify_catches_corruption 64 Simple64K (-1) sample_rom sample_image
           2 1 16385 x00 valid_chip_64 valid_addr_none sample_loadable
           sample_convert);
    [lia | exact sample_image_lookup].
Defined.

Lemma read_past_end (v : list byte) (i : Z) :
  SizeT.size v <= i -> read v i = Undefined.
Proof.
  intros H. unfold read.
  rewrite lookup_ge_None_2; [reflexivity |]. unfold SizeT.size in H. lia.
Qed.

(** One bank of an image that ends inside it: the loop runs off the end. *)
Lemma verify_bank_from_short vb rom dst_off bank todo : forall i,
  0 <= i -> 0 <= dst_off -> 0 <= bank -> (0 < todo)%nat ->
  SizeT.size vb < dst_off + i + Z.of_nat todo ->
  dst_off + i + Z.of_nat todo <= SizeT.max_size ->
  bank * 8192 + i + Z.of_nat todo <= SizeT.size rom ->
  SizeT.size rom <= SizeT.max_size ->
  (forall j, i <= j < i + Z.of_nat todo -> dst_off + j < SizeT.size vb ->
     vb !! Z.to_nat (dst_off + j) = rom !! Z.to_nat (bank * 8192 + j)) ->
  verify_bank_from todo i vb rom dst_off bank = Undefined.
Proof.
  induction todo as [| todo IH];
    intros i Hi Hd Hb Hpos Hshort Hwrap Hrom Hrmax Hsame; [lia |].
  rewrite verify_bank_from_S. unwrap. rewrite BANK_SIZE_eq.
  destruct (Z_lt_dec (dst_off + i) (SizeT.size vb)) as [Hin | Hout].
  - destruct (read_in_range vb (dst_off + i)) as (a & La & ->); [lia |].
    destruct (read_in_range rom (bank * 8192 + i)) as (b & Lb & ->); [lia |].
    simpl. unfold die_if.
    assert (a = b) as ->.
    { specialize (Hsame i). rewrite La, Lb in Hsame.
      assert (Some a = Some b) as Heq by (apply Hsame; lia).
      congruence. }
    assert (negb (Byte.eqb b b) = false) as -> by now apply byte_neqb_false.
    simpl. apply IH; try lia.
    intros j Hj Hjin. apply Hsame; lia.
  - rewrite read_past_end by lia. reflexivity.
Qed.

Lemma verify_banks_from_short vb rom start_bank todo : forall bank,
  0 <= start_bank -> 0 <= bank -> (0 < todo)%nat ->
  SizeT.size vb < (start_bank + bank + Z.of_nat todo) * 8192 ->
  (start_bank + bank + Z.of_nat todo) * 8192 <= SizeT.max_size ->
  (bank + Z.of_nat todo) * 8192 <= SizeT.size rom ->
  SizeT.size rom <= SizeT.max_size ->
  (forall b j, bank <= b < bank + Z.of_nat todo -> 0 <= j < 8192 ->
     (start_bank + b) * 8192 + j < SizeT.size vb ->
     vb !! Z.to_nat ((start_bank + b) * 8192 + j)
     = rom !! Z.to_nat (b * 8192 + j)) ->
  verify_banks_from todo bank vb rom start_bank = Undefined.
Proof.
  induction todo as [| todo IH];
    intros bank Hs Hb Hpos Hshort Hwrap Hrom Hrmax Hsame; [lia |].
  pose proof (size_nonneg vb) as Hvb0.
  rewrite verify_banks_from_S. unwrap. rewrite BANK_SIZE_eq.
  destruct (Z_le_dec ((start_bank + bank + 1) * 8192) (SizeT.size vb))
    as [Hin | Hout].
  - destruct (verify_bank_from_spec vb rom ((start_bank + bank) * 8192) bank
                (Z.to_nat 8192) 0)
      as [[_ ->] | [(j & Hj & Hne) _]]; try arith.
    + simpl. apply IH; try lia.
      intros b j Hb' Hj Hjin. apply Hsame; lia.
    + exfalso. apply Hne. apply Hsame; lia.
  - rewrite verify_bank_from_short; try reflexivity; try lia.
    intros j Hj Hjin. apply Hsame; lia.
Qed.

(** X12. The verify pass does not look at the length of what it read
    back. On a file that holds only the first [k] bytes of the image, with
    [k] before the end of the last written bank, the bank loop reads past
    the end of the vector (lines 203-210). *)
Theorem verify_reads_past_short_file chip_kib type s64k_addr input out
    start_bank in_banks k :
  valid_chip chip_kib -> valid_addr s64k_addr -> loadable input ->
  convert chip_kib type s64k_addr input = Done (out, start_bank, in_banks) ->
  0 < in_banks -> 0 <= k < (start_bank + in_banks) * 8192 ->
  verify_pass (take (Z.to_nat k) out) (pad_rom input) start_bank in_banks
  = Undefined.
Proof.
  intros Hchip Haddr Hload H Hpos Hk.
  destruct (convert_done_readable _ _ _ _ _ _ _ Hchip Haddr Hload H)
    as (Hs0 & _ & [Hfit Hmax] & [Hrom Hrmax]).
  destruct (convert_done_inv _ _ _ _ _ _ _ Hchip Haddr Hload H)
    as (_ & _ & _ & _ & _ & _ & _ & _ & Hin & _).
  assert (SizeT.size (take (Z.to_nat k) out) = k) as Hsize
    by (unfold SizeT.size in *; rewrite length_take; lia).
  unfold verify_pass.
  rewrite verify_banks_from_short; try reflexivity; try lia.
  intros b j Hb Hj Hjin. rewrite Hsize in Hjin.
  rewrite lookup_take_lt by lia. rewrite Hin by lia. f_equal. lia.
Qed.

Lemma verify_reads_past_short_file_witness :
  verify_pass (take (Z.to_nat 20000) sample_image) (pad_rom sample_rom) 2 1
  = Undefined.
Proof.
  apply (verify_reads_past_short_file 64 Simple64K (-1) sample_rom
           sample_image 2 1 20000 valid_chip_64 valid_addr_none
           sample_loadable sample_convert); lia.
Defined.

(** ** The command line (lines 71-110) *)

Lemma parse_options_cons opt rest o :
  parse_options (opt :: rest) o =
  if (opt =? "--chip")%string then
    match rest with
    | [] => Rejected ChipNeedsValue
    | v :: rest' =>
        match atoi v with
        | Done n =>
            if negb ((n =? 64) || (n =? 128) || (n =? 256) || (n =? 512))
            then Rejected UnsupportedChip
            else parse_options rest' (set_chip o n)
        | _ => ParseUndefined
        end
    end
  else if (opt =? "--type")%string then
    match rest with
    | [] => Rejected TypeNeedsValue
    | v :: rest' =>
        match type_of_name v with
        | Some t => parse_options rest' (set_type o t)
        | None => Rejected UnknownType
        end
    end
  else if (opt =? "--addr")%string then
    match rest with
    | [] => Rejected AddrNeedsValue
    | v :: rest' =>
        match atoi v with
        | Done n =>
            if (n <? 0) || (n >? 7) then Rejected AddrOutOfRange
            else parse_options rest' (set_addr o n)
        | _ => ParseUndefined
        end
    end
  else if (opt =? "--verify")%string then parse_options rest (set_verify o)
  else Rejected (UnknownOption opt).
Proof. reflexivity. Qed.

(** Induction along the loop: an iteration hands over either the rest of
    the arguments or the rest after a value. *)
Lemma parse_options_induction (P : list string -> Prop) :
  P [] ->
  (forall opt rest,
     P rest -> (forall v rest', rest = v :: rest' -> P rest') ->
     P (opt :: rest)) ->
  forall args, P args.
Proof.
  intros Hnil Hstep.
  assert (forall n args, (length args <= n)%nat -> P args) as Hall.
  { induction n as [| n IH]; intros [| opt rest] Hlen;
      try exact Hnil; simpl in Hlen; [lia |].
    apply Hstep.
    - apply IH. lia.
    - intros v rest' ->. apply IH. simpl in Hlen. lia. }
  intros args. apply (Hall (length args)). lia.
Qed.

(** One iteration, as the proofs below take it apart. *)
Ltac loop_step H :=
  rewrite parse_options_cons in H;
  repeat match type of H with
         | context [if ?c then _ else _] => destruct c eqn:?
         | context [match ?l with [] => _ | _ :: _ => _ end] =>
             destruct l as [| ? ?]
         | context [match atoi ?v with _ => _ end] => destruct (atoi v) eqn:?
         | context [match type_of_name ?v with _ => _ end] =>
             destruct (type_of_name v) eqn:?
         end;
  try discriminate H.

Lemma parse_options_keeps args : forall o o',
  parse_options args o = Parsed o' ->
  valid_chip (o_chip_kib o) -> valid_addr (o_s64k_addr o) ->
  valid_chip (o_chip_kib o') /\ valid_addr (o_s64k_addr o') /\
  o_in_path o' = o_in_path o /\ o_out_path o' = o_out_path o.
Proof.
  induction args as [| opt rest IHrest IHval] using parse_options_induction;
    intros o o' H Hc Ha.
  - inversion H; subst. tauto.
  - loop_step H.
    + destruct (IHval _ _ eq_refl _ _ H) as (? & ? & ? & ?); simpl; try tauto.
      unfold valid_chip. lia.
    + destruct (IHval _ _ eq_refl _ _ H) as (? & ? & ? & ?); simpl; tauto.
    + destruct (IHval _ _ eq_refl _ _ H) as (? & ? & ? & ?); simpl; try tauto.
      unfold valid_addr. lia.
    + destruct (IHrest _ _ H) as (? & ? & ? & ?); simpl; tauto.
Qed.

(** X13. What the option loop lets through. When the command line is
    accepted, the chip size is 64, 128, 256 or 512, the start hint is -1
    (no [--addr]) or in 0..7, and the paths are [argv[1]] and [argv[2]]. *)
Theorem parse_args_valid argv o :
  parse_args argv = Parsed o ->
  valid_chip (o_chip_kib o) /\ valid_addr (o_s64k_addr o) /\
  argv !! 1%nat = Some (o_in_path o) /\ argv !! 2%nat = Some (o_out_path o).
Proof.
  intros H. unfold parse_args in H.
  destruct argv as [| prog [| in_path [| out_path args]]]; try discriminate.
  destruct (parse_options_keeps _ _ _ H) as (Hc & Ha & -> & ->).
  - right. left. reflexivity.
  - unfold valid_addr. simpl. lia.
  - simpl. tauto.
Qed.

Lemma parse_args_valid_witness :
  valid_chip 64 /\ valid_addr 5 /\
  ["rom2msx"; "in.rom"; "out.bin"; "--addr"; "5"; "--chip"; "64"] !! 1%nat
  = Some "in.rom" /\
  ["rom2msx"; "in.rom"; "out.bin"; "--addr"; "5"; "--chip"; "64"] !! 2%nat
  = Some "out.bin".
Proof.
  apply (parse_args_valid
           ["rom2msx"; "in.rom"; "out.bin"; "--addr"; "5"; "--chip"; "64"]
           {| o_in_path := "in.rom"; o_out_path := "out.bin";
              o_chip_kib := 64; o_type := MegaSCC; o_s64k_addr := 5;
              o_verify := false |}).
  vm_compute. reflexivity.
Defined.

(** X14. The option loop works through its arguments from left to right:
    when a first group of arguments is accepted, reading it followed by
    more arguments is reading the rest from the options it left. So a later
    option overrides an earlier one. *)
Theorem parse_options_app args1 : forall args2 o o1,
  parse_options args1 o = Parsed o1 ->
  parse_options (args1 ++ args2) o = parse_options args2 o1.
Proof.
  induction args1 as [| opt rest IHrest IHval] using parse_options_induction;
    intros args2 o o1 H.
  - inversion H; subst. reflexivity.
  - rewrite <- app_comm_cons, parse_options_cons.
    loop_step H.
    all: repeat (cbn [app];
                 match goal with
                 | E : ?c = _ |- context [?c] => rewrite E
                 end).
    + now apply (IHval _ _ eq_refl).
    + now apply (IHval _ _ eq_refl).
    + now apply (IHval _ _ eq_refl).
    + now apply IHrest.
Qed.

Lemma parse_options_app_witness :
  parse_options (["--chip"; "64"; "--verify"] ++ ["--chip"; "512"])
    (default_options "in.rom" "out.bin")
  = parse_options ["--chip"; "512"]
      (set_verify (set_chip (default_options "in.rom" "out.bin") 64)).
Proof.
  apply (parse_options_app ["--chip"; "64"; "--verify"] ["--chip"; "512"]).
  vm_compute. reflexivity.
Defined.

Lemma string_eqb_true (a b : string) : (a =? b)%string = true -> a = b.
Proof. apply String.eqb_eq. Qed.

Lemma parse_options_untouched args : forall o o',
  parse_options args o = Parsed o' ->
  ("--chip" ∉ args -> o_chip_kib o' = o_chip_kib o) /\
  ("--type" ∉ args -> o_type o' = o_type o) /\
  ("--addr" ∉ args -> o_s64k_addr o' = o_s64k_addr o) /\
  ("--verify" ∉ args -> o_verify o' = o_verify o).
Proof.
  induction args as [| opt rest IHrest IHval] using parse_options_induction;
    intros o o' H.
  - inversion H; subst. tauto.
  - loop_step H;
      repeat match goal with
             | E : (_ =? _)%string = true |- _ =>
                 apply string_eqb_true in E; subst
             end;
      first [ destruct (IHval _ _ eq_refl _ _ H) as (Hc & Ht & Ha & Hv)
            | destruct (IHrest _ _ H) as (Hc & Ht & Ha & Hv) ];
      simpl in *;
      repeat split; intros Hn;
      repeat (apply not_elem_of_cons in Hn; destruct Hn as [? Hn]);
      try congruence; auto.
Qed.

(** X15. Options that are not given keep their defaults: on an accepted
    command line, the chip is 128 KiB without [--chip], the type MegaSCC
    without [--type], there is no start hint without [--addr], and no
    verify pass without [--verify]. *)
Theorem parse_args_defaults argv o :
  parse_args argv = Parsed o ->
  ("--chip" ∉ drop 3 argv -> o_chip_kib o = 128) /\
  ("--type" ∉ drop 3 argv -> o_type o = MegaSCC) /\
  ("--addr" ∉ drop 3 argv -> o_s64k_addr o = -1) /\
  ("--verify" ∉ drop 3 argv -> o_verify o = false).
Proof.
  intros H. unfold parse_args in H.
  destruct argv as [| prog [| in_path [| out_path args]]]; try discriminate.
  exact (parse_options_untouched _ _ _ H).
Qed.

Lemma parse_args_defaults_witness :
  ("--chip" ∉ drop 3 ["rom2msx"; "in.rom"; "out.bin"; "--type"; "rc755"]
   -> 128 = 128) /\
  ("--type" ∉ drop 3 ["rom2msx"; "in.rom"; "out.bin"; "--type"; "rc755"]
   -> RC755 = MegaSCC) /\
  ("--addr" ∉ drop 3 ["rom2msx"; "in.rom"; "out.bin"; "--type"; "rc755"]
   -> -1 = -1) /\
  ("--verify" ∉ drop 3 ["rom2msx"; "in.rom"; "out.bin"; "--type"; "rc755"]
   -> false = false).
Proof.
  apply (parse_args_defaults
           ["rom2msx"; "in.rom"; "out.bin"; "--type"; "rc755"]
           {| o_in_path := "in.rom"; o_out_path := "out.bin";
              o_chip_kib := 128; o_type := RC755; o_s64k_addr := -1;
              o_verify := false |}).
  vm_compute. reflexivity.
Defined.

(** *** [atoi] *)

Lemma atoi_eq v :
  atoi v =
  let s := after_sign (skip_space v) in
  let r := if is_negative (skip_space v) then - digits_value s 0
           else digits_value s 0 in
  if (INT_MIN <=? r) && (r <=? INT_MAX) then Done r else Undefined.
Proof.
  unfold atoi. destruct (skip_space v) as [| c s]; [reflexivity |].
  destruct c as [[] [] [] [] [] [] [] []]; reflexivity.
Qed.

Lemma digits_value_numberless s acc :
  starts_with_digit s = false -> digits_value s acc = acc.
Proof.
  destruct s as [| c s]; [reflexivity |]. simpl.
  destruct (digit_value c); [discriminate | reflexivity].
Qed.

Lemma atoi_numberless v :
  starts_with_digit (after_sign (skip_space v)) = false -> atoi v = Done 0.
Proof.
  intros H. rewrite atoi_eq. cbv zeta.
  rewrite (digits_value_numberless _ 0 H).
  destruct (is_negative (skip_space v)); reflexivity.
Qed.

(** X16. A value without a number counts as 0. When the text after
    leading blanks and an optional sign does not start with a digit,
    [atoi] gives 0: [--addr] takes such a value as start bank 0 and goes
    on, and [--chip] rejects it as an unsupported size. *)
Theorem numberless_value_is_zero v :
  starts_with_digit (after_sign (skip_space v)) = false ->
  atoi v = Done 0 /\
  forall rest o,
    parse_options ("--addr" :: v :: rest) o
    = parse_options rest (set_addr o 0) /\
    parse_options ("--chip" :: v :: rest) o = Rejected UnsupportedChip.
Proof.
  intros H. pose proof (atoi_numberless v H) as E.
  split; [exact E |]. intros rest o.
  rewrite !parse_options_cons. cbn [String.eqb Ascii.eqb Bool.eqb].
  rewrite E. split; reflexivity.
Qed.

Lemma numberless_value_is_zero_witness :
  atoi "--verify" = Done 0 /\
  forall rest o,
    parse_options ("--addr" :: "--verify" :: rest) o
    = parse_options rest (set_addr o 0) /\
    parse_options ("--chip" :: "--verify" :: rest) o
    = Rejected UnsupportedChip.
Proof. apply (numberless_value_is_zero "--verify"). reflexivity. Defined.

Lemma digit_is_plain c d :
  digit_value c = Some d ->
  isspace c = false /\ (forall s, after_sign (String c s) = String c s) /\
  (forall s, is_negative (String c s) = false).
Proof.
  destruct c as [[] [] [] [] [] [] [] []]; try discriminate;
    intros _; repeat split.
Qed.

Lemma starts_with_digit_plain s :
  starts_with_digit s = true ->
  skip_space s = s /\ after_sign s = s /\ is_negative s = false.
Proof.
  destruct s as [| c s]; [discriminate |]. intros H.
  cbn [starts_with_digit] in H.
  destruct (digit_value c) as [d |] eqn:E; [| discriminate].
  destruct (digit_is_plain c d E) as (Hsp & Hsg & Hneg).
  split; [| split; [apply Hsg | apply Hneg]].
  cbn [skip_space]. now rewrite Hsp.
Qed.

Lemma digits_value_app d t : forall acc,
  all_digits d = true -> starts_with_digit t = false ->
  digits_value (d +:+ t) acc = digits_value d acc.
Proof.
  induction d as [| c d IH]; intros acc Hd Ht.
  - simpl. now apply digits_value_numberless.
  - simpl in *. destruct (digit_value c); [| discriminate]. now apply IH.
Qed.

Lemma atoi_trailing d t :
  d <> EmptyString -> all_digits d = true -> starts_with_digit t = false ->
  atoi (d +:+ t) = atoi d.
Proof.
  intros Hne Hd Ht.
  assert (starts_with_digit d = true /\ starts_with_digit (d +:+ t) = true)
    as [H1 H2].
  { destruct d as [| c d]; [congruence |]. simpl in *.
    destruct (digit_value c); [tauto | discriminate]. }
  destruct (starts_with_digit_plain _ H1) as (S1 & A1 & N1).
  destruct (starts_with_digit_plain _ H2) as (S2 & A2 & N2).
  rewrite !atoi_eq. cbv zeta. rewrite S1, S2, A1, A2, N1, N2.
  now rewrite digits_value_app.
Qed.

(** X17. What follows the digits of a value is ignored: a value made of
    digits and then any text that does not start with a digit is read by
    [atoi], and so by [--chip] and [--addr], as the digits alone. *)
Theorem trailing_text_ignored d t :
  d <> EmptyString -> all_digits d = true -> starts_with_digit t = false ->
  atoi (d +:+ t) = atoi d /\
  forall rest o,
    parse_options ("--chip" :: (d +:+ t) :: rest) o
    = parse_options ("--chip" :: d :: rest) o /\
    parse_options ("--addr" :: (d +:+ t) :: rest) o
    = parse_options ("--addr" :: d :: rest) o.
Proof.
  intros Hne Hd Ht. pose proof (atoi_trailing d t Hne Hd Ht) as E.
  split; [exact E |]. intros rest o.
  rewrite !parse_options_cons. cbn [String.eqb Ascii.eqb Bool.eqb].
  rewrite E. split; reflexivity.
Qed.

Lemma trailing_text_ignored_witness :
  atoi ("64" +:+ "KiB") = atoi "64" /\
  forall rest o,
    parse_options ("--chip" :: ("64" +:+ "KiB") :: rest) o
    = parse_options ("--chip" :: "64" :: rest) o /\
    parse_options ("--addr" :: ("64" +:+ "KiB") :: rest) o
    = parse_options ("--addr" :: "64" :: rest) o.
Proof.
  apply (trailing_text_ignored "64" "KiB");
    [discriminate | reflexivity | reflexivity].
Defined.

Lemma digit_value_pretty_char d :
  (d < 10)%N -> digit_value (pretty_N_char d) = Some (Z.of_N d).
Proof.
  intros H.
  assert (d = 0 \/ d = 1 \/ d = 2 \/ d = 3 \/ d = 4 \/ d = 5 \/ d = 6 \/ d = 7
          \/ d = 8 \/ d = 9)%N as Hd by lia.
  repeat (destruct Hd as [-> | Hd]; [reflexivity |]). subst. reflexivity.
Qed.

(** The digits [pretty_N_go] puts in front of [s] are read back as [x]. *)
Lemma pretty_N_go_value x :
  exists k : nat, forall s acc,
    digits_value (pretty_N_go x s) acc
    = digits_value s (acc * 10 ^ Z.of_nat k + Z.of_N x).
Proof.
  induction x as [x IH] using (well_founded_induction N.lt_wf_0).
  destruct (N.eq_dec x 0%N) as [-> | Hx].
  - exists 0%nat. intros s acc. rewrite pretty_N_go_0. f_equal. simpl. lia.
  - destruct (IH (x `div` 10)%N) as [k Hk];
      [apply N.div_lt; lia |].
    exists (S k). intros s acc.
    rewrite pretty_N_go_step by lia. rewrite Hk. cbn [digits_value].
    rewrite digit_value_pretty_char by (apply N.mod_lt; lia).
    f_equal. rewrite Nat2Z.inj_succ, Z.pow_succ_r by lia.
    rewrite N2Z.inj_div, N2Z.inj_mod. change (Z.of_N 10) with 10.
    Z.to_euclidean_division_equations. lia.
Qed.

Lemma pretty_N_go_starts x : forall s,
  (0 < x)%N -> starts_with_digit (pretty_N_go x s) = true.
Proof.
  induction x as [x IH] using (well_founded_induction N.lt_wf_0).
  intros s Hx. rewrite pretty_N_go_step by lia.
  destruct (N.eq_dec (x `div` 10)%N 0%N) as [E | E].
  - rewrite E, pretty_N_go_0. cbn [starts_with_digit].
    now rewrite digit_value_pretty_char by (apply N.mod_lt; lia).
  - apply IH; [apply N.div_lt; lia | apply N.neq_0_lt_0; exact E].
Qed.

Lemma atoi_pretty (x : N) :
  Z.of_N x <= INT_MAX -> atoi (pretty x) = Done (Z.of_N x).
Proof.
  intros Hx. unfold pretty, pretty_N.
  destruct (decide (x = 0%N)) as [-> | Hne]; [reflexivity |].
  destruct (starts_with_digit_plain _ (pretty_N_go_starts x "" ltac:(lia)))
    as (S1 & A1 & N1).
  rewrite atoi_eq. cbv zeta. rewrite S1, A1, N1.
  destruct (pretty_N_go_value x) as [k Hk]. rewrite Hk. cbn [digits_value].
  replace (0 * 10 ^ Z.of_nat k + Z.of_N x) with (Z.of_N x) by lia.
  unfold INT_MIN, INT_MAX in *.
  destruct (_ && _) eqn:E; [reflexivity |].
  apply andb_false_iff in E. destruct E as [E | E]; lia.
Qed.

(** X18. A number written in decimal is read as that number: [atoi] of
    the decimal text of [n], as [std::to_string] writes it, is [n] for
    every [n] of an [int]; so [--addr] followed by the text of a number in
    0..7 sets that start hint. *)
Theorem atoi_of_decimal n :
  0 <= n <= INT_MAX ->
  atoi (to_string n) = Done n /\
  (n <= 7 -> forall rest o,
     parse_options ("--addr" :: to_string n :: rest) o
     = parse_options rest (set_addr o n)).
Proof.
  intros Hn.
  assert (atoi (to_string n) = Done n) as E.
  { unfold to_string. rewrite atoi_pretty by lia. f_equal. lia. }
  split; [exact E |]. intros H7 rest o.
  rewrite parse_options_cons. cbn [String.eqb Ascii.eqb Bool.eqb].
  rewrite E.
  destruct ((n <? 0) || (n >? 7)) eqn:Er; [| reflexivity].
  apply orb_true_iff in Er. destruct Er as [Er | Er]; lia.
Qed.

Lemma atoi_of_decimal_witness :
  atoi (to_string 512) = Done 512.
Proof.
  apply (atoi_of_decimal 512). unfold INT_MAX. lia.
Defined.

(** ** The whole run (lines 47-67 and 71-222) *)

Lemma convert_then_verify chip_kib type s64k_addr input out start_bank
    in_banks :
  valid_chip chip_kib -> valid_addr s64k_addr -> loadable input ->
  convert chip_kib type s64k_addr input = Done (out, start_bank, in_banks) ->
  verify_pass out (pad_rom input) start_bank in_banks = Done tt.
Proof.
  intros Hchip Haddr Hload H.
  pose proof (convert_done_readable _ _ _ _ _ _ _ Hchip Haddr Hload H) as Hr.
  destruct (convert_done_inv _ _ _ _ _ _ _ Hchip Haddr Hload H)
    as (_ & _ & _ & _ & _ & Hlen & Hs0 & Hfit & Hin & Hout).
  destruct (verify_pass_cases out (pad_rom input) start_bank in_banks Hr)
    as [(_ & _ & E) | [(b & Hbad & _) | (_ & (o & Hst & _) & _)]].
  - exact E.
  - exfalso. destruct Hbad as (Hb & (j & Hj & Hne) & _).
    apply Hne. rewrite Hin by lia. f_equal. lia.
  - exfalso. destruct Hst as (Ho & Hnp & Hne).
    rewrite placed_iff in Hnp. apply Hne, Hout; lia.
Qed.

Lemma parse_args_keeps argv o :
  parse_args argv = Parsed o ->
  valid_chip (o_chip_kib o) /\ valid_addr (o_s64k_addr o) /\
  argv !! 2%nat = Some (o_out_path o).
Proof.
  intros H. unfold parse_args in H.
  destruct argv as [| prog [| in_path [| out_path args]]]; try discriminate.
  destruct (parse_options_keeps _ _ _ H) as (Hc & Ha & _ & ->).
  - right. left. reflexivity.
  - unfold valid_addr. simpl. lia.
  - simpl. tauto.
Qed.

Lemma write_file_frame room path buf fs p :
  p <> path -> snd (FS.write_file room path buf fs) !! p = fs !! p.
Proof.
  intros Hp. unfold FS.write_file.
  destruct (room path) as [n |]; [| reflexivity].
  destruct (length buf <=? n)%nat; simpl; apply lookup_insert_ne; congruence.
Qed.

(** X19. A run touches one file at most: whatever the command line,
    whatever the output path takes and however the run ends, every file
    other than [argv[2]] is afterwards as it was before. *)
Theorem program_frame room argv fs e text fs' p :
  program room argv fs = Ended e text fs' ->
  argv !! 2%nat <> Some p ->
  fs' !! p = fs !! p.
Proof.
  unfold program. intros H Hp.
  destruct (parse_args argv) as [o | | f |] eqn:Ep;
    try (inversion H; subst; reflexivity); try discriminate.
  destruct (parse_args_keeps _ _ Ep) as (_ & _ & Hout).
  assert (p <> o_out_path o) as Hne by congruence.
  destruct (FS.read_file (o_in_path o) fs) as [msg | input];
    [inversion H; subst; reflexivity |].
  destruct (convert _ _ _ input) as [[[out start_bank] in_banks] | f |];
    try (inversion H; subst; reflexivity); try discriminate.
  pose proof (write_file_frame room (o_out_path o) out fs p Hne) as Hw.
  destruct (FS.write_file room (o_out_path o) out fs) as [[msg |] fs1];
    simpl in Hw.
  - inversion H; subst. exact Hw.
  - destruct (o_verify o).
    + destruct (_ <- _ ;; _); inversion H; subst; exact Hw.
    + inversion H; subst. exact Hw.
Qed.

Lemma failed_write_run :
  program full ["rom2msx"; "in.rom"; "out.bin"; "--chip"; "64"]
    {["in.rom" := sample_rom]}
  = Ended (Died "Failed to write output file") EmptyString
      (<["out.bin" := []]> {["in.rom" := sample_rom]}).
Proof.
  unfold program.
  change (parse_args ["rom2msx"; "in.rom"; "out.bin"; "--chip"; "64"])
    with (Parsed (set_chip (default_options "in.rom" "out.bin") 64)).
  cbv iota.
  change (o_in_path (set_chip (default_options "in.rom" "out.bin") 64))
    with "in.rom".
  unfold FS.read_file. rewrite lookup_singleton_eq.
  change (o_chip_kib (set_chip (default_options "in.rom" "out.bin") 64))
    with 64.
  change (o_type (set_chip (default_options "in.rom" "out.bin") 64))
    with MegaSCC.
  change (o_s64k_addr (set_chip (default_options "in.rom" "out.bin") 64))
    with (-1).
  rewrite sample_convert_linear. cbv iota beta.
  unfold FS.write_file, full.
  assert ((length sample_image_linear <=? 0)%nat = false) as ->.
  { apply Nat.leb_gt. unfold sample_image_linear, sample_rom.
    rewrite length_app. cbn [length]. lia. }
  reflexivity.
Qed.

Lemma program_frame_witness :
  (<["out.bin" := []]> {["in.rom" := sample_rom]} : Files) !! "in.rom"
  = ({["in.rom" := sample_rom]} : Files) !! "in.rom".
Proof.
  apply (program_frame full ["rom2msx"; "in.rom"; "out.bin"; "--chip"; "64"]
           {["in.rom" := sample_rom]}
           (Died "Failed to write output file") EmptyString
           (<["out.bin" := []]> {["in.rom" := sample_rom]}) "in.rom"
           failed_write_run).
  discriminate.
Defined.

(** X20. The output file is written only after a finished conversion,
    and only a failed write leaves it incomplete. After a run the files
    are as before (usage text, rejected option, missing input file, failed
    conversion, output that cannot be opened); or the output path holds
    the whole image; or the run died with the message of the failed write
    and the output path holds a shorter beginning of the image. *)
Theorem program_output_file room argv fs e text fs' :
  program room argv fs = Ended e text fs' ->
  fs' = fs \/
  exists o input out start_bank in_banks,
    parse_args argv = Parsed o /\ fs !! o_in_path o = Some input /\
    convert (o_chip_kib o) (o_type o) (o_s64k_addr o) input
      = Done (out, start_bank, in_banks) /\
    (fs' = <[o_out_path o := out]> fs \/
     exists n, (n < length out)%nat /\
       e = Died "Failed to write output file" /\
       fs' = <[o_out_path o := take n out]> fs).
Proof.
  unfold program. intros H.
  destruct (parse_args argv) as [o | | f |] eqn:Ep;
    try (inversion H; subst; left; reflexivity); try discriminate.
  unfold FS.read_file in H.
  destruct (fs !! o_in_path o) as [input |] eqn:Ein;
    [| inversion H; subst; left; reflexivity].
  destruct (convert _ _ _ input) as [[[out start_bank] in_banks] | f |] eqn:Ec;
    try (inversion H; subst; left; reflexivity); try discriminate.
  unfold FS.write_file in H.
  destruct (room (o_out_path o)) as [n |];
    [| inversion H; subst; left; reflexivity].
  right. exists o, input, out, start_bank, in_banks.
  split; [reflexivity |]. split; [assumption |]. split; [assumption |].
  destruct (length out <=? n)%nat eqn:El.
  - left. destruct (o_verify o).
    + destruct (_ <- _ ;; _); inversion H; subst; reflexivity.
    + inversion H; subst. reflexivity.
  - right. exists n. apply Nat.leb_gt in El.
    inversion H; subst. repeat split. exact El.
Qed.

Lemma program_output_file_witness :
  (<["out.bin" := []]> {["in.rom" := sample_rom]} : Files)
  = {["in.rom" := sample_rom]} \/
  exists o input out start_bank in_banks,
    parse_args ["rom2msx"; "in.rom"; "out.bin"; "--chip"; "64"] = Parsed o /\
    ({["in.rom" := sample_rom]} : Files) !! o_in_path o = Some input /\
    convert (o_chip_kib o) (o_type o) (o_s64k_addr o) input
      = Done (out, start_bank, in_banks) /\
    ((<["out.bin" := []]> {["in.rom" := sample_rom]} : Files)
     = <[o_out_path o := out]> {["in.rom" := sample_rom]} \/
     exists n, (n < length out)%nat /\
       Died "Failed to write output file"
       = Died "Failed to write output file" /\
       (<["out.bin" := []]> {["in.rom" := sample_rom]} : Files)
       = <[o_out_path o := take n out]> {["in.rom" := sample_rom]}).
Proof.
  apply (program_output_file full
           ["rom2msx"; "in.rom"; "out.bin"; "--chip"; "64"]
           {["in.rom" := sample_rom]}
           (Died "Failed to write output file") EmptyString
           (<["out.bin" := []]> {["in.rom" := sample_rom]})
           failed_write_run).
Defined.

(** X21. When a run succeeds. With an accepted command line and an input
    file that is there, the run returns 0 exactly when the padded ROM
    passes the three checks of the conversion and the output path can be
    opened and takes the whole image; [--verify] never changes that. The
    run then leaves the image, written in full at the resolved start bank,
    under the output path (also when that is the input path) and prints
    the report line. *)
Theorem program_succeeds room argv fs o input :
  parse_args argv = Parsed o -> fs !! o_in_path o = Some input ->
  loadable input ->
  ((exists text fs', program room argv fs = Ended (Returned 0) text fs') <->
   ~ window_exceeded (o_type o) input /\
   ~ chip_exceeded (o_chip_kib o) input /\
   ~ addr_exceeded (o_type o) (o_s64k_addr o) input /\
   exists n, room (o_out_path o) = Some n /\
             chip_capacity (o_chip_kib o) <= Z.of_nat n) /\
  (forall text fs',
     program room argv fs = Ended (Returned 0) text fs' ->
     text =
       report o (bank_count input)
         (resolved_start (o_type o) (o_s64k_addr o) (normalized_size input))
       +:+ (if o_verify o then "; verify: OK" else "") +:+ newline /\
     fs' =
       <[o_out_path o :=
           laid_out (o_chip_kib o)
             (resolved_start (o_type o) (o_s64k_addr o)
                (normalized_size input))
             (pad_rom input)]> fs).
Proof.
  intros Ep Ein Hload.
  destruct (parse_args_keeps _ _ Ep) as (Hchip & Haddr & _).
  unfold program, FS.read_file. rewrite Ep, Ein.
  destruct (convert_cases (o_chip_kib o) (o_type o) (o_s64k_addr o) input
              Hchip Haddr Hload)
    as [[Hw E] | [(Hw & Hc & E) | [(Hw & Hc & Ha & E)
                                  | (Hw & Hc & Ha & Hf)]]];
    try (rewrite E; split;
         [split; [intros (text & fs' & H); discriminate | tauto]
         | intros text fs' H; discriminate]).
  destruct Hf as (out & E & Hlen & _).
  pose proof (convert_then_verify _ _ _ _ _ _ _ Hchip Haddr Hload E) as Hv.
  pose proof (convert_done_laid_out _ _ _ _ _ _ _ Hchip Haddr Hload E)
    as Hout.
  rewrite E. cbv iota beta. unfold FS.write_file.
  destruct (room (o_out_path o)) as [n |].
  2:{ split; [split |].
      - intros (text & fs' & H). discriminate.
      - intros (_ & _ & _ & n & Hn & _). discriminate.
      - intros text fs' H. discriminate. }
  unfold SizeT.size in Hlen.
  destruct (length out <=? n)%nat eqn:El.
  - apply Nat.leb_le in El.
    rewrite lookup_insert_eq. cbn [bind]. rewrite Hv, <- Hout.
    split; [split |].
    + intros _. repeat (split; [assumption |]). exists n. split; [| lia].
      reflexivity.
    + intros _. destruct (o_verify o); eauto.
    + intros text fs' H.
      destruct (o_verify o); inversion H; subst; split; reflexivity.
  - apply Nat.leb_gt in El. split; [split |].
    + intros (text & fs' & H). discriminate.
    + intros (_ & _ & _ & m & Hm & Hcap). inversion Hm; subst. lia.
    + intros text fs' H. discriminate.
Qed.

Lemma program_succeeds_witness :
  (exists text fs',
     program roomy
       ["rom2msx"; "rom"; "rom"; "--type"; "s64k"; "--chip"; "64"; "--verify"]
       {["rom" := sample_rom]}
     = Ended (Returned 0) text fs') <->
  ~ window_exceeded Simple64K sample_rom /\
  ~ chip_exceeded 64 sample_rom /\
  ~ addr_exceeded Simple64K (-1) sample_rom /\
  exists n, roomy "rom" = Some n /\ chip_capacity 64 <= Z.of_nat n.
Proof.
  apply (program_succeeds roomy
           ["rom2msx"; "rom"; "rom"; "--type"; "s64k"; "--chip"; "64";
            "--verify"]
           {["rom" := sample_rom]}
           {| o_in_path := "rom"; o_out_path := "rom"; o_chip_kib := 64;
              o_type := Simple64K; o_s64k_addr := -1; o_verify := true |}
           sample_rom).
  - vm_compute. reflexivity.
  - apply lookup_singleton_eq.
  - exact sample_loadable.
Defined.
